(** * A pointer-bumping heap allocator (pb-alloc.c)

    Shallow embedding of [init], [malloc], [free], [calloc] and [realloc]
    of pb-alloc.c, and the properties of the allocator's specification.

    Target model: LP64 (as on x86-64 Linux, the platform of [sysconf] and
    [mmap]): [size_t] and pointers are unsigned 64-bit, [intptr_t] is signed
    64-bit in two's complement, [sizeof(header_s)] is 8 and the header's
    [size] field is stored little-endian.  Integers are [Z] with the
    wrap-around of every C operation written out.

    Memory is one flat byte-addressed store.  Reads and writes that leave
    the mapped span have no meaning in C; the model performs them on the
    flat store.  A theorem that asserts that a call returns after writing
    or copying therefore carries the premise that the bytes it touches lie
    inside the span ([in_span], or the invariant together with a request
    that does not wrap: [malloc_block_in_heap]). *)

From Stdlib Require Import ZArith Lia List Bool.
From coqutil Require Import Byte Word.LittleEndianList.
Import ListNotations.
Local Open Scope Z_scope.

(* ===================================================================== *)
(** ** Machine integers *)

(** Result of an arithmetic operation carried out in [size_t]
    (unsigned long): reduction modulo 2^64. *)
Definition wrap64 (z : Z) : Z := z mod 2 ^ 64.

Definition INTPTR_MAX : Z := 2 ^ 63 - 1.

(** Conversion of a 64-bit unsigned result to [intptr_t]. *)
Definition to_intptr (z : Z) : Z :=
  let u := wrap64 z in
  if u <=? INTPTR_MAX then u else u - 2 ^ 64.

Definition NULL : Z := 0.

(** [(void* )-1], the error value of [mmap]. *)
Definition MAP_FAILED : Z := 2 ^ 64 - 1.

(* ===================================================================== *)
(** ** Macro constants *)

Definition KB (size : Z) : Z := wrap64 (size * 1024).
Definition MB (size : Z) : Z := wrap64 (KB size * 1024).
Definition GB (size : Z) : Z := wrap64 (MB size * 1024).

(** The virtual address space reserved for the heap. *)
Definition HEAP_SIZE : Z := GB 2.

(** [sizeof(header_s)]: one [size_t] field. *)
Definition sizeof_header : Z := 8.

(* ===================================================================== *)
(** ** Memory *)

Definition memory : Type := Z -> byte.

Definition upd (m : memory) (a : Z) (b : byte) : memory :=
  fun x => if x =? a then b else m x.

Fixpoint store_bytes (m : memory) (a : Z) (bs : list byte) : memory :=
  match bs with
  | [] => m
  | b :: bs' => store_bytes (upd m a b) (a + 1) bs'
  end.

Fixpoint load_bytes (m : memory) (a : Z) (n : nat) : list byte :=
  match n with
  | O => []
  | S n' => m a :: load_bytes m (a + 1) n'
  end.

(** [header_ptr->size = v]. *)
Definition store_size (m : memory) (a : Z) (v : Z) : memory :=
  store_bytes m a (le_split 8 v).

(** [header_ptr->size] read back. *)
Definition load_size (m : memory) (a : Z) : Z :=
  le_combine (load_bytes m a 8).

(** [memset(p, c, n)] of the C library: the [n] bytes from [p] become [c]. *)
Definition memset (m : memory) (p : Z) (c : byte) (n : Z) : memory :=
  fun x => if (p <=? x) && (x <? p + n) then c else m x.

(** [memcpy(dst, src, n)] of the C library: the [n] bytes from [dst] become
    the [n] bytes that were at [src].  (C defines it for regions that do
    not overlap.) *)
Definition memcpy (m : memory) (dst src : Z) (n : Z) : memory :=
  fun x => if (dst <=? x) && (x <? dst + n) then m (src + (x - dst)) else m x.

(* ===================================================================== *)
(** ** Globals *)

Record heap : Type := mkHeap {
  free_addr  : Z;   (** address of the next available byte *)
  start_addr : Z;   (** beginning of the heap *)
  end_addr   : Z;   (** end of the heap *)
  mem        : memory
}.

Definition set_mem (s : heap) (m : memory) : heap :=
  {| free_addr := free_addr s; start_addr := start_addr s;
     end_addr := end_addr s; mem := m |}.

(** The globals as the program starts: all three are 0. *)
Definition pristine (m : memory) : heap :=
  {| free_addr := 0; start_addr := 0; end_addr := 0; mem := m |}.

(** Error-or-value: [None] is the process having been stopped by [ERROR]. *)
Definition bind {A B : Type} (c : option A) (k : A -> option B) : option B :=
  match c with
  | Some a => k a
  | None => None
  end.

Notation "x <- c ;; k" := (bind c (fun x => k))
  (at level 61, c at next level, right associativity).

(** The padding put before the header when the frontier is [free]:
    [16 - ((free_addr + sizeof(header_s)) % 16)], and 0 in place of 16. *)
Definition padding (free : Z) : Z :=
  let padding := 16 - (wrap64 (free + sizeof_header)) mod 16 in
  if padding =? 16 then 0 else padding.

Section Allocator.

(** What the kernel answers to the one [mmap] call of [init]. *)
Variable mmap_result : Z.

(** Modelled from the spec: [ERROR] of safeio.h, which is not among the
    sources; a failed reservation is fatal and the process stops. *)
Definition ERROR {A : Type} : option A := None.

(** The first call maps the span; the pages of a private anonymous mapping
    read as zero.  Later calls do nothing. *)
Definition init (s : heap) : option heap :=
  if start_addr s =? 0 then
    let heap := mmap_result in
    if heap =? MAP_FAILED then ERROR
    else
      let start := to_intptr heap in
      Some {| start_addr := start;
              end_addr   := to_intptr (start + HEAP_SIZE);
              free_addr  := start;
              mem        := memset (mem s) heap Byte.x00 HEAP_SIZE |}
  else Some s.

Definition malloc (s : heap) (size : Z) : option (heap * Z) :=
  s <- init s ;;
  if size =? 0 then Some (s, NULL)
  else
    let total_size := wrap64 (size + sizeof_header) in
    let padding := padding (free_addr s) in
    let header_ptr := wrap64 (free_addr s + padding) in
    let block_ptr := wrap64 (free_addr s + padding + sizeof_header) in
    let new_free_addr := to_intptr (free_addr s + padding + total_size) in
    if new_free_addr >? end_addr s then Some (s, NULL)
    else
      Some ({| free_addr  := new_free_addr;
               start_addr := start_addr s;
               end_addr   := end_addr s;
               mem        := store_size (mem s) header_ptr size |},
            block_ptr).

(** [free] only emits a diagnostic ([DEBUG] of safeio.h writes to the
    error stream); the globals and the heap bytes are not touched. *)
Definition free (s : heap) (ptr : Z) : heap := s.

Definition calloc (s : heap) (nmemb size : Z) : option (heap * Z) :=
  let block_size := wrap64 (nmemb * size) in
  r <- malloc s block_size ;;
  let '(s, block_ptr) := r in
  if negb (block_ptr =? NULL)
  then Some (set_mem s (memset (mem s) block_ptr Byte.x00 block_size), block_ptr)
  else Some (s, block_ptr).

Definition realloc (s : heap) (ptr size : Z) : option (heap * Z) :=
  if ptr =? NULL then malloc s size
  else if size =? 0 then Some (free s ptr, NULL)
  else
    let old_header := wrap64 (ptr - sizeof_header) in
    let old_size := load_size (mem s) old_header in
    if size <=? old_size then Some (s, ptr)
    else
      r <- malloc s size ;;
      let '(s, new_ptr) := r in
      if negb (new_ptr =? NULL)
      then Some (free (set_mem s (memcpy (mem s) new_ptr ptr old_size)) ptr,
                 new_ptr)
      else Some (s, new_ptr).

End Allocator.

(* ===================================================================== *)
(** ** Calls of the public family, and histories of calls *)

Inductive op : Type :=
| Malloc  (size : Z)
| Calloc  (nmemb size : Z)
| Realloc (ptr size : Z)
| Free    (ptr : Z).

(** One call; [free] returns nothing, shown as [NULL]. *)
Definition exec (mmap_result : Z) (s : heap) (o : op) : option (heap * Z) :=
  match o with
  | Malloc size => malloc mmap_result s size
  | Calloc nmemb size => calloc mmap_result s nmemb size
  | Realloc ptr size => realloc mmap_result s ptr size
  | Free ptr => Some (free s ptr, NULL)
  end.

(** The byte count that a call may hand to [malloc]. *)
Definition op_size (o : op) : Z :=
  match o with
  | Malloc size => size
  | Calloc nmemb size => wrap64 (nmemb * size)
  | Realloc _ size => size
  | Free _ => 0
  end.

(** The request does not wrap: the exact sum frontier + padding + header +
    size is representable in [intptr_t]. *)
Definition fits (s : heap) (size : Z) : bool :=
  (0 <=? size) &&
  (free_addr s + padding (free_addr s) + sizeof_header + size <=? INTPTR_MAX).

Fixpoint run (mmap_result : Z) (s : heap) (ops : list op) : option heap :=
  match ops with
  | [] => Some s
  | o :: ops' =>
      r <- exec mmap_result s o ;;
      run mmap_result (fst r) ops'
  end.

(** The pointers that the calls of a history return. *)
Fixpoint pointers (mmap_result : Z) (s : heap) (ops : list op)
  : option (list Z) :=
  match ops with
  | [] => Some []
  | o :: ops' =>
      r <- exec mmap_result s o ;;
      ps <- pointers mmap_result (fst r) ops' ;;
      Some (snd r :: ps)
  end.

(** Every call of the history fits in the state it is made in. *)
Fixpoint all_fit (mmap_result : Z) (s : heap) (ops : list op) : bool :=
  match ops with
  | [] => true
  | o :: ops' =>
      fits s (op_size o) &&
      match exec mmap_result s o with
      | Some (s', _) => all_fit mmap_result s' ops'
      | None => true
      end
  end.

(** [malloc] called [k] times in a row with the same size: the final
    state and the pointers returned. *)
Fixpoint malloc_repeat (mmap_result : Z) (k : nat) (s : heap) (size : Z)
  : option (heap * list Z) :=
  match k with
  | O => Some (s, [])
  | S k' =>
      r <- malloc mmap_result s size ;;
      r' <- malloc_repeat mmap_result k' (fst r) size ;;
      Some (fst r', snd r :: snd r')
  end.

(* ===================================================================== *)
(** ** Predicates of the specification *)

(** The heap region invariant: an initialised heap whose frontier lies
    between its bounds. *)
Definition heap_ok (s : heap) : Prop :=
  0 < start_addr s /\
  start_addr s <= free_addr s /\
  free_addr s <= end_addr s /\
  end_addr s <= INTPTR_MAX.

(** The kernel's answer is a span of [HEAP_SIZE] bytes of user addresses. *)
Definition mmap_ok (mmap_result : Z) : Prop :=
  0 < mmap_result /\ mmap_result + HEAP_SIZE <= INTPTR_MAX.

(** The extent of a block: from its header to the end of its payload. *)
Definition extent (block_ptr size : Z) : Z * Z :=
  (block_ptr - sizeof_header, block_ptr + size).

Definition disjoint (e1 e2 : Z * Z) : Prop :=
  snd e1 <= fst e2 \/ snd e2 <= fst e1.

(** The new frontier as [malloc] computes it. *)
Definition new_free_addr (s : heap) (size : Z) : Z :=
  to_intptr (free_addr s + padding (free_addr s) + wrap64 (size + sizeof_header)).

(** A memory of zeroes, and the heap that [init] makes of the pristine
    globals when [mmap] answers [base]. *)
Definition zero_memory : memory := fun _ => Byte.x00.

Definition fresh (base : Z) : heap :=
  {| free_addr := base; start_addr := base; end_addr := base + HEAP_SIZE;
     mem := memset zero_memory base Byte.x00 HEAP_SIZE |}.

(** A span that [mmap] may hand out (page aligned). *)
Definition base0 : Z := 139637976727552.

(** The heap is set up and its frontier is a non-negative [intptr_t]. *)
Definition initialized (s : heap) : Prop :=
  start_addr s <> 0 /\ 0 <= free_addr s <= INTPTR_MAX.

(** A state that keeps the bounds of [s], does not move the frontier
    backward, and satisfies the invariant. *)
Definition advances (s s' : heap) : Prop :=
  heap_ok s' /\
  free_addr s <= free_addr s' /\
  start_addr s' = start_addr s /\
  end_addr s' = end_addr s.

(* ===================================================================== *)
(** ** The heaps of memtest.c *)

(** The heap of memtest.c after [x = malloc(24)]. *)
Definition heap_x : heap :=
  {| free_addr := base0 + 40; start_addr := base0;
     end_addr := base0 + HEAP_SIZE;
     mem := store_size (mem (fresh base0)) (base0 + 8) 24 |}.

(** [heap_x] after [y = malloc(19)]. *)
Definition heap_y : heap :=
  {| free_addr := base0 + 67; start_addr := base0;
     end_addr := base0 + HEAP_SIZE;
     mem := store_size (mem heap_x) (base0 + 40) 19 |}.

(** The heap of memtest.c's copy test: [arr = malloc(13)] on a fresh
    heap, then the bytes 0..12 written at offsets 0..12. *)
Definition arr_bytes : list byte :=
  [Byte.x00; Byte.x01; Byte.x02; Byte.x03; Byte.x04; Byte.x05; Byte.x06;
   Byte.x07; Byte.x08; Byte.x09; Byte.x0a; Byte.x0b; Byte.x0c].

Definition heap_arr : heap :=
  {| free_addr := base0 + 29; start_addr := base0;
     end_addr := base0 + HEAP_SIZE;
     mem := store_bytes (store_size (mem (fresh base0)) (base0 + 8) 13)
              (base0 + 16) arr_bytes |}.

(** [heap_arr] after the [malloc(17)] inside [realloc(arr, 17)]. *)
Definition heap_arr17 : heap :=
  {| free_addr := base0 + 65; start_addr := base0;
     end_addr := base0 + HEAP_SIZE;
     mem := store_size (mem heap_arr) (base0 + 40) 17 |}.

(** A fresh heap after [v = malloc(16)] and sixteen bytes [0xff] written
    to [v]. *)
Definition heap_v : heap :=
  {| free_addr := base0 + 32; start_addr := base0;
     end_addr := base0 + HEAP_SIZE;
     mem := store_bytes (store_size (mem (fresh base0)) (base0 + 8) 16)
              (base0 + 16) (repeat Byte.xff 16) |}.

(** [heap_v] after [malloc(2^64 - 24)]: the header of that block is at
    [base0 + 40] and the frontier has wrapped to [base0 + 24]. *)
Definition heap_v_wrapped : heap :=
  {| free_addr := base0 + 24; start_addr := base0;
     end_addr := base0 + HEAP_SIZE;
     mem := store_size (mem heap_v) (base0 + 40) (2 ^ 64 - 24) |}.

(** The [n] bytes from [a] lie inside the reserved span, a span of user
    addresses. *)
Definition in_span (s : heap) (a n : Z) : Prop :=
  0 < start_addr s /\ start_addr s <= a /\ a + n <= end_addr s.

(** [p[i] = v] for a [size_t* p] and each [v] of a list, [i] counting
    from 0. *)
Fixpoint store_words (m : memory) (a : Z) (vs : list Z) : memory :=
  match vs with
  | [] => m
  | v :: vs' => store_words (store_size m a v) (a + 8) vs'
  end.

(** The heap of memtest.c's copy test as the program leaves it:
    [size_t* arr = malloc(13)] on a fresh heap, then [arr[i] = i] for
    [i] from 0 to 12, thirteen words that run on past the frontier. *)
Definition heap_arr_words : heap :=
  {| free_addr := base0 + 29; start_addr := base0;
     end_addr := base0 + HEAP_SIZE;
     mem := store_words (store_size (mem (fresh base0)) (base0 + 8) 13)
              (base0 + 16) [0; 1; 2; 3; 4; 5; 6; 7; 8; 9; 10; 11; 12] |}.

(* ===================================================================== *)
(** ** The standalone entry point and its arithmetic *)

(** [main] of pb-alloc.c (compiled under [ALLOC_MAIN]): three blocks are
    allocated and then freed; the exit status is 0. *)
Definition main (mmap_result : Z) (s : heap) : option (heap * Z) :=
  r <- malloc mmap_result s 16 ;;
  let '(s, x) := r in
  r <- malloc mmap_result s 64 ;;
  let '(s, y) := r in
  r <- malloc mmap_result s 32 ;;
  let '(s, z) := r in
  let s := free s z in
  let s := free s y in
  let s := free s x in
  Some (s, 0).

(** The least multiple of 16 that is at least [x]. *)
Definition round_up16 (x : Z) : Z := 16 * ((x + 15) / 16).

(* ===================================================================== *)
(** ** Machine arithmetic *)

Lemma wrap64_small (z : Z) : 0 <= z < 2 ^ 64 -> wrap64 z = z.
Proof. intros H. unfold wrap64. now apply Z.mod_small. Qed.

Lemma wrap64_range (z : Z) : 0 <= wrap64 z < 2 ^ 64.
Proof. unfold wrap64. apply Z.mod_pos_bound. reflexivity. Qed.

Lemma to_intptr_small (z : Z) : 0 <= z <= INTPTR_MAX -> to_intptr z = z.
Proof.
  intros H. unfold to_intptr, INTPTR_MAX in *.
  rewrite wrap64_small by lia.
  destruct (Z.leb_spec z (2 ^ 63 - 1)); lia.
Qed.

Lemma wrap64_mod16 (z : Z) : wrap64 z mod 16 = z mod 16.
Proof.
  unfold wrap64. apply Z.mod_mod_divide.
  exists (2 ^ 60). reflexivity.
Qed.

Lemma padding_range (f : Z) : 0 <= padding f < 16.
Proof.
  unfold padding. rewrite wrap64_mod16.
  pose proof (Z.mod_pos_bound (f + sizeof_header) 16 eq_refl).
  destruct (Z.eqb_spec (16 - (f + sizeof_header) mod 16) 16); lia.
Qed.

Lemma padding_aligned (f : Z) : (f + padding f + sizeof_header) mod 16 = 0.
Proof.
  unfold padding. rewrite wrap64_mod16. unfold sizeof_header.
  destruct (Z.eqb_spec (16 - (f + 8) mod 16) 16);
    Z.div_mod_to_equations; lia.
Qed.

(* ===================================================================== *)
(** ** Memory: what a store changes and what it leaves alone *)

Lemma store_bytes_outside (bs : list byte) :
  forall (m : memory) (a x : Z),
    x < a \/ a + Z.of_nat (length bs) <= x ->
    store_bytes m a bs x = m x.
Proof.
  induction bs as [|b bs IH]; intros m a x Hx; simpl in *.
  - reflexivity.
  - rewrite IH by lia. unfold upd.
    destruct (Z.eqb_spec x a); [lia | reflexivity].
Qed.

Lemma load_store_bytes (bs : list byte) :
  forall (m : memory) (a : Z),
    load_bytes (store_bytes m a bs) a (length bs) = bs.
Proof.
  induction bs as [|b bs IH]; intros m a; simpl.
  - reflexivity.
  - rewrite IH. f_equal.
    rewrite store_bytes_outside by lia.
    unfold upd. now rewrite Z.eqb_refl.
Qed.

Lemma load_bytes_ext (n : nat) :
  forall (m m' : memory) (a : Z),
    (forall x, a <= x < a + Z.of_nat n -> m' x = m x) ->
    load_bytes m' a n = load_bytes m a n.
Proof.
  induction n as [|n IH]; intros m m' a H; simpl.
  - reflexivity.
  - rewrite H by lia. f_equal. apply IH. intros x Hx. apply H. lia.
Qed.

Lemma store_size_outside (m : memory) (a v x : Z) :
  x < a \/ a + sizeof_header <= x -> store_size m a v x = m x.
Proof.
  intros H. unfold store_size. apply store_bytes_outside.
  rewrite length_le_split. unfold sizeof_header in H. lia.
Qed.

Lemma load_store_size (m : memory) (a v : Z) :
  load_size (store_size m a v) a = wrap64 v.
Proof.
  unfold load_size, store_size.
  rewrite <- (length_le_split 8 v) at 2.
  rewrite load_store_bytes, le_combine_split. reflexivity.
Qed.

Lemma load_size_range (m : memory) (a : Z) : 0 <= load_size m a < 2 ^ 64.
Proof.
  unfold load_size.
  pose proof (le_combine_bound (load_bytes m a 8)) as H.
  simpl length in H. exact H.
Qed.

Lemma load_size_ext (m m' : memory) (a : Z) :
  (forall x, a <= x < a + sizeof_header -> m' x = m x) ->
  load_size m' a = load_size m a.
Proof.
  intros H. unfold load_size. f_equal. apply load_bytes_ext.
  intros x Hx. apply H. unfold sizeof_header. simpl in Hx. lia.
Qed.

(* ===================================================================== *)
(** ** The allocation engine, case by case *)

Section Engine.

Variable mmap_result : Z.

Lemma init_initialized (s : heap) :
  start_addr s <> 0 -> init mmap_result s = Some s.
Proof.
  intros H. unfold init.
  destruct (Z.eqb_spec (start_addr s) 0); [contradiction | reflexivity].
Qed.

Lemma malloc_after_init (s s0 : heap) (size : Z) :
  init mmap_result s = Some s0 -> start_addr s0 <> 0 ->
  malloc mmap_result s size = malloc mmap_result s0 size.
Proof.
  intros Hi Hs. unfold malloc at 1 2.
  rewrite Hi, (init_initialized s0 Hs). reflexivity.
Qed.

Lemma heap_ok_initialized (s : heap) : heap_ok s -> initialized s.
Proof. unfold heap_ok, initialized. lia. Qed.

Example init_pristine :
  init base0 (pristine zero_memory) = Some (fresh base0).
Proof. reflexivity. Qed.

(** The three ways out of [malloc] on an initialised heap. *)
Lemma malloc_cases (s : heap) (size : Z) :
  start_addr s <> 0 ->
  malloc mmap_result s size =
    if size =? 0 then Some (s, NULL)
    else if new_free_addr s size >? end_addr s then Some (s, NULL)
    else Some ({| free_addr := new_free_addr s size;
                  start_addr := start_addr s;
                  end_addr := end_addr s;
                  mem := store_size (mem s)
                           (wrap64 (free_addr s + padding (free_addr s))) size |},
               wrap64 (free_addr s + padding (free_addr s) + sizeof_header)).
Proof.
  intros H. unfold malloc. rewrite (init_initialized s H). reflexivity.
Qed.

(** Below the largest [intptr_t] the new frontier is the exact sum. *)
Lemma new_free_addr_exact (s : heap) (size : Z) :
  0 <= free_addr s -> fits s size = true ->
  new_free_addr s size =
    free_addr s + padding (free_addr s) + sizeof_header + size.
Proof.
  intros Hf Hfit. unfold fits in Hfit.
  apply andb_true_iff in Hfit. destruct Hfit as [H0 H1].
  apply Z.leb_le in H0. apply Z.leb_le in H1.
  pose proof (padding_range (free_addr s)) as Hp.
  unfold new_free_addr, INTPTR_MAX, sizeof_header in *.
  rewrite (wrap64_small (size + 8)) by lia.
  rewrite to_intptr_small; unfold INTPTR_MAX; lia.
Qed.

(** With a non-negative frontier the header and payload addresses do not
    wrap. *)
Lemma block_ptr_exact (s : heap) :
  initialized s ->
  wrap64 (free_addr s + padding (free_addr s)) =
    free_addr s + padding (free_addr s) /\
  wrap64 (free_addr s + padding (free_addr s) + sizeof_header) =
    free_addr s + padding (free_addr s) + sizeof_header.
Proof.
  intros (_ & H0 & H1).
  pose proof (padding_range (free_addr s)) as Hp.
  unfold INTPTR_MAX, sizeof_header in *.
  split; apply wrap64_small; lia.
Qed.

End Engine.

(* ===================================================================== *)
(** ** Alignment of the payload *)

(** C1.  Every call [malloc(size)] with [size > 0] that returns a pointer
    other than [NULL] returns a payload address that is a multiple of 16:
    it is frontier + padding + header size of the initialised heap (in
    [size_t]), and, the padding being
    [16 - ((frontier + header size) mod 16)] with 16 replaced by 0, that
    sum is a multiple of 16 for every frontier [f]. *)
Theorem malloc_payload_aligned
    (mmap_result : Z) (s s' : heap) (size p f : Z) :
  0 < size ->
  malloc mmap_result s size = Some (s', p) ->
  p <> NULL ->
  p mod 16 = 0 /\
  (exists s0, init mmap_result s = Some s0 /\
     p = wrap64 (free_addr s0 + padding (free_addr s0) + sizeof_header)) /\
  padding f =
    (let r := 16 - (f + sizeof_header) mod 16 in
     if r =? 16 then 0 else r) /\
  0 <= padding f < 16 /\
  (f + padding f + sizeof_header) mod 16 = 0.
Proof.
  intros Hsize Hm Hp. unfold malloc in Hm.
  destruct (init mmap_result s) as [s0|] eqn:Hinit; simpl in Hm;
    [|discriminate].
  destruct (size =? 0); [inversion Hm; subst; contradiction|].
  destruct (_ >? _); inversion Hm; subst; [contradiction|].
  repeat split.
  - rewrite wrap64_mod16. apply padding_aligned.
  - exists s0. split; reflexivity.
  - unfold padding. rewrite wrap64_mod16. reflexivity.
  - apply padding_range.
  - apply padding_range.
  - apply padding_aligned.
Qed.

Lemma malloc_payload_aligned_witness : (base0 + 16) mod 16 = 0.
Proof.
  refine (proj1 (malloc_payload_aligned base0 (fresh base0) _ 24
                   (base0 + 16) 0 _ _ _)).
  - lia.
  - reflexivity.
  - discriminate.
Defined.

(* ===================================================================== *)
(** ** Exhaustion *)

(** C3, as it holds.  On an initialised heap, every call [malloc(size)]
    whose new frontier, as the code computes it (the 64-bit wrap-around
    sum read as [intptr_t]), exceeds [end_addr] returns [NULL] and leaves
    the whole state as it was; so do [k] such calls in a row. *)
Theorem malloc_exhausted_unchanged
    (mmap_result : Z) (s : heap) (size : Z) (k : nat) :
  start_addr s <> 0 ->
  new_free_addr s size > end_addr s ->
  malloc mmap_result s size = Some (s, NULL) /\
  malloc_repeat mmap_result k s size = Some (s, repeat NULL k).
Proof.
  intros Hinit Hex.
  assert (Hm : malloc mmap_result s size = Some (s, NULL)).
  { rewrite malloc_cases by assumption.
    destruct (size =? 0); [reflexivity|].
    destruct (Z.gtb_spec (new_free_addr s size) (end_addr s));
      [reflexivity | lia]. }
  split; [exact Hm|].
  induction k as [|k IH]; simpl.
  - reflexivity.
  - rewrite Hm. simpl. rewrite IH. reflexivity.
Qed.

Lemma malloc_exhausted_unchanged_witness :
  malloc base0 (fresh base0) HEAP_SIZE = Some (fresh base0, NULL) /\
  malloc_repeat base0 3 (fresh base0) HEAP_SIZE =
    Some (fresh base0, [NULL; NULL; NULL]).
Proof.
  apply (malloc_exhausted_unchanged base0 (fresh base0) HEAP_SIZE 3).
  - discriminate.
  - reflexivity.
Defined.

(** Without wrap-around the code's new frontier is the exact sum, so the
    exact sum exceeding [end_addr] is the exhaustion of C3. *)
Lemma exhausted_exact (s : heap) (size : Z) :
  0 <= free_addr s -> fits s size = true ->
  free_addr s + padding (free_addr s) + sizeof_header + size > end_addr s ->
  new_free_addr s size > end_addr s.
Proof. intros Hf Hfit H. rewrite new_free_addr_exact; assumption. Qed.

(** C3, as stated, fails: on the heap just initialised at [base0] the
    exact sum frontier + padding + header size + size exceeds [end_addr]
    for [size = 2^64 - 16], yet [malloc] returns the block at
    [base0 + 16] and writes its header. *)
Lemma malloc_wrapped_request_succeeds :
  let s := fresh base0 in
  let size := 2 ^ 64 - 16 in
  free_addr s + padding (free_addr s) + sizeof_header + size > end_addr s /\
  exists s', malloc base0 s size = Some (s', base0 + 16) /\
    base0 + 16 <> NULL /\
    load_size (mem s) (base0 + 8) = 0 /\
    load_size (mem s') (base0 + 8) = size.
Proof.
  cbv zeta. split; [reflexivity|].
  eexists. split; [reflexivity|].
  split; [discriminate|]. split; vm_compute; reflexivity.
Qed.

(* ===================================================================== *)
(** ** Deallocation *)

(** C9.  [free(ptr)], for every [ptr] and [NULL] too, leaves the whole
    state as it was: frontier, bounds, and every byte of the heap, hence
    every header and every payload; as a call of the family it returns
    nothing and changes nothing. *)
Theorem free_changes_nothing (mmap_result : Z) (s : heap) (ptr : Z) :
  free s ptr = s /\
  free s NULL = s /\
  exec mmap_result s (Free ptr) = Some (s, NULL) /\
  (forall a, load_size (mem (free s ptr)) a = load_size (mem s) a).
Proof. repeat split. Qed.

(* ===================================================================== *)
(** ** Zeroed allocation *)

(** C10.  When the product of [nmemb] and [size] is 0 modulo 2^64,
    [calloc(nmemb, size)] returns [NULL] once the heap is initialised:
    the total is the wrap-around product, and [malloc(0)] is [NULL]. *)
Theorem calloc_zero_total_null (mmap_result : Z) (s : heap) (nmemb size : Z) :
  (nmemb * size) mod 2 ^ 64 = 0 ->
  calloc mmap_result s nmemb size =
    (s0 <- init mmap_result s ;; Some (s0, NULL)).
Proof.
  intros H. unfold calloc, wrap64. rewrite H. unfold malloc.
  destruct (init mmap_result s); reflexivity.
Qed.

Lemma calloc_zero_total_null_witness :
  calloc base0 (fresh base0) (2 ^ 32) (2 ^ 32) = Some (fresh base0, NULL).
Proof.
  apply (calloc_zero_total_null base0 (fresh base0) (2 ^ 32) (2 ^ 32)).
  reflexivity.
Defined.

Example calloc_zero_count (mmap_result : Z) (s : heap) (size : Z) :
  start_addr s <> 0 -> calloc mmap_result s 0 size = Some (s, NULL).
Proof.
  intros H. unfold calloc. simpl. unfold malloc.
  rewrite init_initialized by assumption. reflexivity.
Qed.

Example calloc_zero_size (mmap_result : Z) (s : heap) (nmemb : Z) :
  start_addr s <> 0 -> calloc mmap_result s nmemb 0 = Some (s, NULL).
Proof.
  intros H. unfold calloc. rewrite Z.mul_0_r. unfold malloc.
  rewrite init_initialized by assumption. reflexivity.
Qed.

(* ===================================================================== *)
(** ** Resizing *)

(** C6.  [realloc(ptr, size)] with [ptr] not [NULL] and [size] positive
    and at most the size recorded in the block's header returns [ptr]
    itself and the state as it was: nothing is copied, the header keeps
    its recorded size, and the frontier stays. *)
Theorem realloc_within_size_identity
    (mmap_result : Z) (s : heap) (ptr size : Z) :
  ptr <> NULL ->
  0 < size <= load_size (mem s) (wrap64 (ptr - sizeof_header)) ->
  realloc mmap_result s ptr size = Some (s, ptr).
Proof.
  intros Hp [H0 H1]. unfold realloc.
  destruct (Z.eqb_spec ptr NULL); [contradiction|].
  destruct (Z.eqb_spec size 0); [lia|].
  destruct (Z.leb_spec size (load_size (mem s) (wrap64 (ptr - sizeof_header))));
    [reflexivity | lia].
Qed.

Example heap_x_reached :
  malloc base0 (pristine zero_memory) 24 = Some (heap_x, base0 + 16).
Proof. reflexivity. Qed.

Lemma realloc_within_size_identity_witness :
  realloc base0 heap_x (base0 + 16) 20 = Some (heap_x, base0 + 16).
Proof.
  apply (realloc_within_size_identity base0 heap_x (base0 + 16) 20).
  - discriminate.
  - vm_compute. split; [reflexivity | discriminate].
Defined.

(** What [malloc] returns on an initialised heap: [NULL] with the state
    untouched, or the block at frontier + padding + header size with the
    frontier moved and the header written. *)
Lemma malloc_ok_inv (mmap_result : Z) (s s1 : heap) (size p : Z) :
  initialized s ->
  malloc mmap_result s size = Some (s1, p) ->
  (p = NULL /\ s1 = s /\ (size = 0 \/ new_free_addr s size > end_addr s)) \/
  (size <> 0 /\
   new_free_addr s size <= end_addr s /\
   p = free_addr s + padding (free_addr s) + sizeof_header /\
   p <> NULL /\
   s1 = {| free_addr := new_free_addr s size;
           start_addr := start_addr s;
           end_addr := end_addr s;
           mem := store_size (mem s)
                    (free_addr s + padding (free_addr s)) size |}).
Proof.
  intros Hok Hm.
  rewrite malloc_cases in Hm by (apply Hok).
  destruct (block_ptr_exact s Hok) as [Hh Hb]. rewrite Hh, Hb in Hm.
  destruct (Z.eqb_spec size 0).
  { inversion Hm; subst. left. auto. }
  destruct (Z.gtb_spec (new_free_addr s size) (end_addr s)).
  { inversion Hm; subst. left. repeat split; auto. right. lia. }
  inversion Hm; subst. right.
  destruct Hok as (H0 & H1 & H2).
  pose proof (padding_range (free_addr s)).
  unfold NULL, sizeof_header. repeat split; auto; lia.
Qed.

(** C8.  [calloc(nmemb, size)] hands the total, the product computed in
    [size_t], to [malloc]; the heap, set up by [init] if need be, has a
    non-negative frontier.  When [malloc] returns a pointer other than
    [NULL], for a block (header and payload) inside the reserved span,
    [calloc] returns the same pointer and each of the total's bytes of
    the payload is zero, the bytes outside the payload and the globals
    being as [malloc] left them; when [malloc] returns [NULL], [calloc]
    returns [NULL] with the heap as [init] left it: nothing is zeroed.
    (On a heap that satisfies the invariant a request that does not wrap
    is inside the span: [malloc_block_in_heap].) *)
Theorem calloc_zeroes_payload
    (mmap_result : Z) (s s0 s1 : heap) (nmemb size p : Z) :
  init mmap_result s = Some s0 ->
  initialized s0 ->
  malloc mmap_result s (wrap64 (nmemb * size)) = Some (s1, p) ->
  (p <> NULL ->
   in_span s1 (p - sizeof_header)
     (sizeof_header + wrap64 (nmemb * size))) ->
  exists s',
    calloc mmap_result s nmemb size = Some (s', p) /\
    (p = NULL -> s' = s1 /\ s1 = s0) /\
    (p <> NULL ->
       (forall i, 0 <= i < wrap64 (nmemb * size) ->
                  mem s' (p + i) = Byte.x00) /\
       (forall a, a < p \/ p + wrap64 (nmemb * size) <= a ->
                  mem s' a = mem s1 a) /\
       load_size (mem s') (p - sizeof_header) = wrap64 (nmemb * size) /\
       free_addr s' = free_addr s1 /\
       start_addr s' = start_addr s1 /\
       end_addr s' = end_addr s1) /\
    (0 <= nmemb * size < 2 ^ 64 -> wrap64 (nmemb * size) = nmemb * size).
Proof.
  intros Hi Hin Hm Hspan.
  rewrite (malloc_after_init mmap_result s s0 _ Hi) in Hm by (apply Hin).
  unfold calloc.
  rewrite (malloc_after_init mmap_result s s0 _ Hi) by (apply Hin).
  rewrite Hm. simpl.
  destruct (malloc_ok_inv _ _ _ _ _ Hin Hm)
    as [(Ep & Es & _) | (_ & _ & Ep & Hp & Es1)].
  - subst p s1. simpl. exists s0.
    split; [reflexivity|]. split; [intros _; split; reflexivity|].
    split; [intros H; contradiction|]. apply wrap64_small.
  - destruct (Z.eqb_spec p NULL) as [E|_]; [contradiction|]. simpl.
    eexists. split; [reflexivity|].
    split; [intros E; contradiction|].
    split; [|apply wrap64_small].
    intros _. simpl.
    assert (Hset : forall a,
               memset (mem s1) p Byte.x00 (wrap64 (nmemb * size)) a =
               if (p <=? a) && (a <? p + wrap64 (nmemb * size))
               then Byte.x00 else mem s1 a) by reflexivity.
    split; [|split; [|split; [|repeat split]]].
    + intros i Hi'. rewrite Hset.
      destruct (Z.leb_spec p (p + i)); [|lia].
      destruct (Z.ltb_spec (p + i) (p + wrap64 (nmemb * size))); [|lia].
      reflexivity.
    + intros a Ha. rewrite Hset.
      destruct (Z.leb_spec p a);
        destruct (Z.ltb_spec a (p + wrap64 (nmemb * size)));
        simpl; try reflexivity; lia.
    + transitivity
        (load_size (store_size (mem s0) (p - sizeof_header)
                      (wrap64 (nmemb * size))) (p - sizeof_header)).
      * apply load_size_ext. intros a Ha. rewrite Hset.
        destruct (Z.leb_spec p a); [lia|]. simpl.
        rewrite Es1. simpl.
        replace (p - sizeof_header)
          with (free_addr s0 + padding (free_addr s0)) by lia.
        reflexivity.
      * rewrite load_store_size. unfold wrap64.
        apply Z.mod_mod. discriminate.
Qed.

Lemma calloc_zeroes_payload_witness :
  mem heap_arr_words (base0 + 48) = Byte.x04 /\
  exists s',
    calloc base0 heap_arr_words 3 4 = Some (s', base0 + 48) /\
    forall i, 0 <= i < 12 -> mem s' (base0 + 48 + i) = Byte.x00.
Proof.
  split; [vm_compute; reflexivity|].
  destruct (calloc_zeroes_payload base0 heap_arr_words heap_arr_words
              {| free_addr := base0 + 60; start_addr := base0;
                 end_addr := base0 + HEAP_SIZE;
                 mem := store_size (mem heap_arr_words) (base0 + 40) 12 |}
              3 4 (base0 + 48))
    as (s' & Hc & _ & Hz & _).
  - reflexivity.
  - unfold initialized. vm_compute. repeat split; discriminate.
  - reflexivity.
  - intros _. unfold in_span. vm_compute. repeat split; discriminate.
  - exists s'. split; [exact Hc|].
    apply Hz. discriminate.
Defined.

(** C5.  On an initialised heap, [realloc(ptr, size)]
    with [ptr] not [NULL] and [size] above the recorded size, when the
    inner [malloc] returns [NULL], returns [NULL] and the state as it
    was before the call: nothing was copied or freed, so the header of the
    block and its payload are as they were. *)
Theorem realloc_grow_failure_unchanged
    (mmap_result : Z) (s s1 : heap) (ptr size : Z) :
  initialized s ->
  ptr <> NULL ->
  load_size (mem s) (wrap64 (ptr - sizeof_header)) < size ->
  malloc mmap_result s size = Some (s1, NULL) ->
  realloc mmap_result s ptr size = Some (s, NULL) /\
  s1 = s /\
  load_size (mem s1) (wrap64 (ptr - sizeof_header)) =
    load_size (mem s) (wrap64 (ptr - sizeof_header)) /\
  (forall a, mem s1 a = mem s a).
Proof.
  intros Hok Hp Hgrow Hm.
  pose proof (load_size_range (mem s) (wrap64 (ptr - sizeof_header))) as Hr.
  assert (Hs : s1 = s).
  { destruct (malloc_ok_inv _ _ _ _ _ Hok Hm) as [(_ & E & _) | (_ & _ & _ & Hn & _)];
      [exact E | contradiction]. }
  subst s1. repeat split.
  unfold realloc.
  destruct (Z.eqb_spec ptr NULL); [contradiction|].
  destruct (Z.eqb_spec size 0); [lia|].
  destruct (Z.leb_spec size (load_size (mem s) (wrap64 (ptr - sizeof_header))));
    [lia|].
  rewrite Hm. reflexivity.
Qed.

Lemma heap_x_initialized : initialized heap_x.
Proof. unfold initialized. vm_compute. repeat split; discriminate. Defined.

Lemma realloc_grow_failure_unchanged_witness :
  realloc base0 heap_x (base0 + 16) HEAP_SIZE = Some (heap_x, NULL).
Proof.
  refine (proj1 (realloc_grow_failure_unchanged base0 heap_x heap_x
                   (base0 + 16) HEAP_SIZE heap_x_initialized _ _ _)).
  - discriminate.
  - vm_compute. reflexivity.
  - reflexivity.
Defined.

(** C4, as it holds.  On a heap that satisfies the invariant, for a
    block at [ptr] whose header and payload lie in the heap below the
    frontier (so [ptr] is not [NULL]), [realloc(ptr, size)] with [size]
    above the recorded size and a request that does not wrap, when the
    inner [malloc] returns a pointer other than [NULL], returns that
    pointer, which differs from [ptr]; the state is the one [malloc] left
    with [memcpy] of exactly the recorded size applied and then
    [free(ptr)]; the first recorded-size bytes of the new payload are
    those of the old payload before the call, every byte outside them is
    as [malloc] left it, the old payload is intact, the new header
    records [size], and the new block lies inside the heap, at or after
    the old frontier: every byte read, written or copied is in the
    span. *)
Theorem realloc_grow_copies
    (mmap_result : Z) (s s1 : heap) (ptr size new_ptr : Z) :
  let old_size := load_size (mem s) (wrap64 (ptr - sizeof_header)) in
  heap_ok s ->
  fits s size = true ->
  start_addr s + sizeof_header <= ptr ->
  ptr + old_size <= free_addr s ->
  old_size < size ->
  malloc mmap_result s size = Some (s1, new_ptr) ->
  new_ptr <> NULL ->
  exists s',
    realloc mmap_result s ptr size = Some (s', new_ptr) /\
    ptr <> NULL /\
    new_ptr <> ptr /\
    s' = free (set_mem s1 (memcpy (mem s1) new_ptr ptr old_size)) ptr /\
    (forall i, 0 <= i < old_size ->
               mem s' (new_ptr + i) = mem s (ptr + i)) /\
    (forall a, a < new_ptr \/ new_ptr + old_size <= a ->
               mem s' a = mem s1 a) /\
    (forall i, 0 <= i < old_size -> mem s' (ptr + i) = mem s (ptr + i)) /\
    load_size (mem s') (new_ptr - sizeof_header) = size /\
    free_addr s <= new_ptr - sizeof_header /\
    new_ptr + size <= end_addr s.
Proof.
  intros old_size Hheap Hfit Hblock Hlive Hgrow Hm Hnew.
  pose proof (heap_ok_initialized _ Hheap) as Hok.
  pose proof Hheap as (Hs0 & Hs1 & Hs2 & Hs3).
  assert (Hp : ptr <> NULL) by (unfold NULL, sizeof_header in *; lia).
  pose proof (load_size_range (mem s) (wrap64 (ptr - sizeof_header))) as Hr.
  fold old_size in Hr.
  pose proof (padding_range (free_addr s)) as Hpad.
  pose proof (new_free_addr_exact s size ltac:(lia) Hfit) as Hexact.
  destruct (malloc_ok_inv _ _ _ _ _ Hok Hm)
    as [(E & _) | (Hsz & Hfree & Eptr & _ & Es1)]; [contradiction|].
  rewrite Hexact in Hfree.
  assert (Hmem : forall a, a < new_ptr - sizeof_header \/ new_ptr <= a ->
                           mem s1 a = mem s a).
  { intros a Ha. rewrite Es1. simpl. apply store_size_outside.
    unfold sizeof_header in *. lia. }
  assert (Hcopy : forall a,
             mem (set_mem s1 (memcpy (mem s1) new_ptr ptr old_size)) a =
             if (new_ptr <=? a) && (a <? new_ptr + old_size)
             then mem s1 (ptr + (a - new_ptr)) else mem s1 a)
    by reflexivity.
  exists (free (set_mem s1 (memcpy (mem s1) new_ptr ptr old_size)) ptr).
  unfold free. repeat split.
  - unfold realloc.
    destruct (Z.eqb_spec ptr NULL); [contradiction|].
    destruct (Z.eqb_spec size 0); [contradiction|].
    fold old_size.
    destruct (Z.leb_spec size old_size); [lia|].
    rewrite Hm. simpl.
    destruct (Z.eqb_spec new_ptr NULL); [contradiction | reflexivity].
  - exact Hp.
  - unfold sizeof_header in *. lia.
  - intros i Hi. rewrite Hcopy.
    destruct (Z.leb_spec new_ptr (new_ptr + i)); [|lia].
    destruct (Z.ltb_spec (new_ptr + i) (new_ptr + old_size)); [|lia].
    simpl. replace (ptr + (new_ptr + i - new_ptr)) with (ptr + i) by lia.
    apply Hmem. unfold sizeof_header in *. lia.
  - intros a Ha. rewrite Hcopy.
    destruct (Z.leb_spec new_ptr a);
      destruct (Z.ltb_spec a (new_ptr + old_size)); simpl;
      try reflexivity; lia.
  - intros i Hi. rewrite Hcopy.
    destruct (Z.leb_spec new_ptr (ptr + i));
      [unfold sizeof_header in *; lia|].
    simpl. apply Hmem. unfold sizeof_header in *. lia.
  - transitivity
      (load_size (store_size (mem s) (new_ptr - sizeof_header) size)
         (new_ptr - sizeof_header)).
    + apply load_size_ext. intros a Ha. rewrite Hcopy.
      destruct (Z.leb_spec new_ptr a); [unfold sizeof_header in *; lia|].
      simpl. rewrite Es1. simpl.
      replace (new_ptr - sizeof_header)
        with (free_addr s + padding (free_addr s)) by lia.
      reflexivity.
    + rewrite load_store_size. apply wrap64_small.
      unfold INTPTR_MAX, sizeof_header in *. lia.
  - unfold sizeof_header in *. lia.
  - unfold sizeof_header in *. lia.
Qed.

Lemma heap_arr_ok : heap_ok heap_arr.
Proof. unfold heap_ok. vm_compute. repeat split; discriminate. Defined.

Lemma realloc_grow_copies_witness :
  exists s',
    realloc base0 heap_arr (base0 + 16) 17 = Some (s', base0 + 48) /\
    base0 + 48 <> base0 + 16 /\
    load_bytes (mem s') (base0 + 48) 13 = arr_bytes.
Proof.
  destruct (realloc_grow_copies base0 heap_arr heap_arr17
              (base0 + 16) 17 (base0 + 48))
    as (s' & Hr & _ & Hne & Es' & _).
  - exact heap_arr_ok.
  - reflexivity.
  - vm_compute. discriminate.
  - vm_compute. discriminate.
  - vm_compute. reflexivity.
  - reflexivity.
  - discriminate.
  - exists s'. split; [exact Hr|]. split; [exact Hne|].
    rewrite Es'. vm_compute. reflexivity.
Defined.

(** C4, as stated, fails once an earlier request has wrapped the
    frontier back below a block.  [v = malloc(16)] on the fresh heap and
    sixteen bytes [0xff] written to it give [heap_v]; [malloc(2^64 - 24)]
    succeeds and leaves the frontier at [base0 + 24], inside [v].  Then
    [realloc(v, 17)]: the recorded size is 16, the inner [malloc(17)]
    succeeds and puts the new header at [base0 + 24], over bytes 8..15 of
    [v], before the copy; byte 8 of the new block is [0x11], not the
    [0xff] that [v] held. *)
Lemma realloc_after_wrap_loses_content :
  malloc base0 (fresh base0) 16 =
    Some (set_mem heap_v (store_size (mem (fresh base0)) (base0 + 8) 16),
          base0 + 16) /\
  malloc base0 heap_v (2 ^ 64 - 24) = Some (heap_v_wrapped, base0 + 48) /\
  base0 + 16 <> NULL /\
  load_size (mem heap_v_wrapped) (wrap64 (base0 + 16 - sizeof_header)) = 16 /\
  16 < 17 /\
  exists s1 s',
    malloc base0 heap_v_wrapped 17 = Some (s1, base0 + 32) /\
    base0 + 32 <> NULL /\
    realloc base0 heap_v_wrapped (base0 + 16) 17 = Some (s', base0 + 32) /\
    mem heap_v_wrapped (base0 + 16 + 8) = Byte.xff /\
    mem s' (base0 + 32 + 8) = Byte.x11 /\
    mem s' (base0 + 32 + 8) <> mem heap_v_wrapped (base0 + 16 + 8).
Proof.
  split; [reflexivity|]. split; [reflexivity|].
  split; [discriminate|]. split; [vm_compute; reflexivity|].
  split; [reflexivity|].
  eexists. eexists.
  split; [reflexivity|]. split; [discriminate|].
  split; [reflexivity|].
  split; [vm_compute; reflexivity|].
  split; [vm_compute; reflexivity|].
  vm_compute. discriminate.
Qed.

Example heap_arr_reached :
  malloc base0 (fresh base0) 13 =
    Some (set_mem heap_arr (store_size (mem (fresh base0)) (base0 + 8) 13),
          base0 + 16).
Proof. reflexivity. Qed.

(* ===================================================================== *)
(** ** The frontier *)

Section Frontier.

Variable mmap_result : Z.

Lemma advances_refl (s : heap) : heap_ok s -> advances s s.
Proof. unfold advances. intuition lia. Qed.

Lemma advances_trans (s s' s'' : heap) :
  advances s s' -> advances s' s'' -> advances s s''.
Proof. unfold advances. intuition lia. Qed.

Lemma advances_set_mem (s s' : heap) (m : memory) :
  advances s s' -> advances s (set_mem s' m).
Proof. unfold advances, heap_ok. simpl. intuition lia. Qed.

Lemma init_heap_ok (m : memory) (s0 : heap) :
  mmap_ok mmap_result ->
  init mmap_result (pristine m) = Some s0 ->
  heap_ok s0 /\ free_addr s0 = start_addr s0 /\
  start_addr s0 = mmap_result /\
  end_addr s0 = mmap_result + HEAP_SIZE.
Proof.
  intros [H0 H1] Hinit. unfold init in Hinit. simpl in Hinit.
  assert (HH : HEAP_SIZE = 2147483648) by reflexivity.
  unfold INTPTR_MAX in H1.
  destruct (Z.eqb_spec mmap_result MAP_FAILED) as [E|_].
  { unfold MAP_FAILED in E. lia. }
  inversion Hinit; subst; clear Hinit.
  unfold heap_ok. simpl.
  rewrite (to_intptr_small mmap_result) by (unfold INTPTR_MAX; lia).
  rewrite to_intptr_small by (unfold INTPTR_MAX; lia).
  unfold INTPTR_MAX. repeat split; lia.
Qed.

Lemma malloc_advances (s s1 : heap) (size p : Z) :
  heap_ok s -> fits s size = true ->
  malloc mmap_result s size = Some (s1, p) ->
  advances s s1.
Proof.
  intros Hok Hfit Hm.
  destruct (malloc_ok_inv _ _ _ _ _ (heap_ok_initialized _ Hok) Hm)
    as [(_ & E & _) | (_ & Hle & _ & _ & E)]; subst s1.
  - now apply advances_refl.
  - pose proof (padding_range (free_addr s)) as Hp.
    pose proof Hok as (H0 & H1 & H2 & H3).
    rewrite new_free_addr_exact in * by (assumption || lia).
    unfold fits in Hfit. apply andb_true_iff in Hfit.
    destruct Hfit as [Hs _]. apply Z.leb_le in Hs.
    unfold advances, heap_ok, sizeof_header in *. simpl.
    repeat split; lia.
Qed.

(** The block of a request that does not wrap lies inside the heap. *)
Lemma malloc_block_in_heap (s s1 : heap) (size p : Z) :
  heap_ok s -> fits s size = true ->
  malloc mmap_result s size = Some (s1, p) ->
  p <> NULL ->
  start_addr s <= p - sizeof_header /\ p + size <= end_addr s /\
  free_addr s1 = p + size.
Proof.
  intros Hok Hfit Hm Hp.
  destruct (malloc_ok_inv _ _ _ _ _ (heap_ok_initialized _ Hok) Hm)
    as [(E & _) | (_ & Hle & Ep & _ & Es1)]; [contradiction|].
  pose proof (padding_range (free_addr s)) as Hpad.
  pose proof Hok as (H0 & H1 & H2 & H3).
  rewrite Es1. simpl.
  rewrite new_free_addr_exact in * by (assumption || lia).
  unfold sizeof_header in *. repeat split; lia.
Qed.

Lemma exec_advances (s s' : heap) (o : op) (r : Z) :
  heap_ok s -> fits s (op_size o) = true ->
  exec mmap_result s o = Some (s', r) ->
  advances s s'.
Proof.
  intros Hok Hfit He. destruct o as [size|nmemb size|ptr size|ptr];
    simpl in *.
  - eapply malloc_advances; eassumption.
  - unfold calloc in He.
    destruct (malloc mmap_result s (wrap64 (nmemb * size)))
      as [[s1 p]|] eqn:Hm; simpl in He; [|discriminate].
    pose proof (malloc_advances _ _ _ _ Hok Hfit Hm) as Hadv.
    destruct (negb (p =? NULL)); inversion He; subst.
    + now apply advances_set_mem.
    + exact Hadv.
  - unfold realloc in He.
    destruct (ptr =? NULL).
    { eapply malloc_advances; eassumption. }
    destruct (size =? 0).
    { inversion He; subst. now apply advances_refl. }
    destruct (size <=? _).
    { inversion He; subst. now apply advances_refl. }
    destruct (malloc mmap_result s size) as [[s1 p]|] eqn:Hm;
      simpl in He; [|discriminate].
    pose proof (malloc_advances _ _ _ _ Hok Hfit Hm) as Hadv.
    destruct (negb (p =? NULL)); inversion He; subst.
    + unfold free. now apply advances_set_mem.
    + exact Hadv.
  - inversion He; subst. now apply advances_refl.
Qed.

Lemma run_advances (ops : list op) :
  forall s s' : heap,
    heap_ok s -> all_fit mmap_result s ops = true ->
    run mmap_result s ops = Some s' ->
    advances s s'.
Proof.
  induction ops as [|o ops IH]; intros s s' Hok Hfit Hrun; simpl in *.
  - inversion Hrun; subst. now apply advances_refl.
  - apply andb_true_iff in Hfit. destruct Hfit as [Hf Hrest].
    destruct (exec mmap_result s o) as [[s1 r]|] eqn:He; simpl in Hrun;
      [|discriminate].
    pose proof (exec_advances _ _ _ _ Hok Hf He) as Hadv.
    eapply advances_trans; [exact Hadv|].
    apply IH; [apply Hadv | assumption | assumption].
Qed.

End Frontier.

(** C7, as it holds.  After initialisation on a span that [mmap] handed
    out, and after any history of calls of the family none of which wraps
    (each request's exact sum frontier + padding + header size + size
    stays within [intptr_t]), the invariant start <= frontier <= end
    holds, and one more such call of [malloc], [calloc], [realloc] or
    [free] keeps the invariant and the bounds and does not move the
    frontier backward. *)
Theorem frontier_invariant_monotone
    (mmap_result : Z) (m : memory) (s0 s s' : heap)
    (ops : list op) (o : op) (r : Z) :
  mmap_ok mmap_result ->
  init mmap_result (pristine m) = Some s0 ->
  all_fit mmap_result s0 ops = true ->
  run mmap_result s0 ops = Some s ->
  fits s (op_size o) = true ->
  exec mmap_result s o = Some (s', r) ->
  (start_addr s0 <= free_addr s0 <= end_addr s0) /\
  (start_addr s <= free_addr s <= end_addr s) /\
  (start_addr s' <= free_addr s' <= end_addr s') /\
  free_addr s0 <= free_addr s /\
  free_addr s <= free_addr s' /\
  start_addr s' = start_addr s0 /\
  end_addr s' = end_addr s0.
Proof.
  intros Hmm Hinit Hfit Hrun Hf He.
  destruct (init_heap_ok mmap_result m s0 Hmm Hinit) as (Hok0 & _).
  pose proof (run_advances mmap_result ops s0 s Hok0 Hfit Hrun)
    as (Hok & Hmono & Hst & Hen).
  pose proof (exec_advances mmap_result s s' o r Hok Hf He)
    as (Hok' & Hmono' & Hst' & Hen').
  unfold heap_ok in *. repeat split; lia.
Qed.

(** C7, as stated, fails: on the heap just initialised at [base0],
    [malloc(2^64 - 17)] returns the block at [base0 + 16] and leaves the
    frontier at [base0 - 1], before the frontier it started from and
    before [start_addr]. *)
Lemma malloc_moves_frontier_backward :
  init base0 (pristine zero_memory) = Some (fresh base0) /\
  exists s',
    exec base0 (fresh base0) (Malloc (2 ^ 64 - 17)) = Some (s', base0 + 16) /\
    free_addr s' = base0 - 1 /\
    free_addr s' < free_addr (fresh base0) /\
    ~ (start_addr s' <= free_addr s' <= end_addr s').
Proof.
  split; [reflexivity|].
  eexists. split; [reflexivity|].
  split; [reflexivity|]. split; [reflexivity|].
  simpl. vm_compute. intros [H _]. apply H. reflexivity.
Qed.

Lemma mmap_ok_base0 : mmap_ok base0.
Proof. unfold mmap_ok. vm_compute. split; [reflexivity | discriminate]. Defined.

Lemma frontier_invariant_monotone_witness :
  (start_addr heap_x <= free_addr heap_x <= end_addr heap_x) /\
  (start_addr heap_y <= free_addr heap_y <= end_addr heap_y) /\
  free_addr heap_x <= free_addr heap_y.
Proof.
  destruct (frontier_invariant_monotone base0 zero_memory (fresh base0)
              heap_x heap_y [Malloc 24] (Malloc 19) (base0 + 48)
              mmap_ok_base0 eq_refl eq_refl eq_refl eq_refl eq_refl)
    as (_ & Hx & Hy & _ & Hmono & _).
  exact (conj Hx (conj Hy Hmono)).
Defined.

(* ===================================================================== *)
(** ** Blocks do not overlap *)

(** C2, as it holds.  On a heap that satisfies the invariant, take a
    successful [malloc(n1)], then any history of calls of the family, then
    a successful [malloc(n2)], no request wrapping (each exact sum
    frontier + padding + header size + size stays within [intptr_t]).
    The first call leaves the frontier at the end of the block it
    returned, the second block's header starts at or after that end, and
    so the two header-plus-payload extents are disjoint, whichever is
    named first. *)
Theorem malloc_blocks_disjoint
    (mmap_result : Z) (s s1 s2 s3 : heap) (n1 n2 p1 p2 : Z)
    (ops : list op) :
  heap_ok s ->
  fits s n1 = true ->
  malloc mmap_result s n1 = Some (s1, p1) ->
  p1 <> NULL ->
  all_fit mmap_result s1 ops = true ->
  run mmap_result s1 ops = Some s2 ->
  fits s2 n2 = true ->
  malloc mmap_result s2 n2 = Some (s3, p2) ->
  p2 <> NULL ->
  free_addr s1 = p1 + n1 /\
  p1 + n1 <= p2 - sizeof_header /\
  disjoint (extent p1 n1) (extent p2 n2) /\
  disjoint (extent p2 n2) (extent p1 n1).
Proof.
  intros Hok Hf1 Hm1 Hp1 Hfit Hrun Hf2 Hm2 Hp2.
  pose proof (malloc_advances _ _ _ _ _ Hok Hf1 Hm1) as (Hok1 & _).
  pose proof (run_advances _ _ _ _ Hok1 Hfit Hrun) as (Hok2 & Hmono & _).
  destruct (malloc_ok_inv _ _ _ _ _ (heap_ok_initialized _ Hok) Hm1)
    as [(E & _) | (_ & _ & Ep1 & _ & Es1)]; [contradiction|].
  destruct (malloc_ok_inv _ _ _ _ _ (heap_ok_initialized _ Hok2) Hm2)
    as [(E & _) | (_ & _ & Ep2 & _ & _)]; [contradiction|].
  assert (Hfree1 : free_addr s1 = p1 + n1).
  { rewrite Es1. simpl.
    rewrite new_free_addr_exact by (assumption || (destruct Hok; lia)).
    lia. }
  pose proof (padding_range (free_addr s2)) as Hpad.
  assert (Hsep : p1 + n1 <= p2 - sizeof_header) by lia.
  unfold disjoint, extent. simpl. auto.
Qed.

Lemma malloc_blocks_disjoint_witness :
  disjoint (extent (base0 + 16) 24) (extent (base0 + 48) 19).
Proof.
  refine (proj1 (proj2 (proj2
    (malloc_blocks_disjoint base0 (fresh base0) heap_x heap_x heap_y
       24 19 (base0 + 16) (base0 + 48) [Free (base0 + 16)]
       _ eq_refl eq_refl _ eq_refl eq_refl eq_refl eq_refl _)))).
  - unfold heap_ok. vm_compute. repeat split; discriminate.
  - discriminate.
  - discriminate.
Defined.

(** C2, as stated, fails: on the heap just initialised at [base0],
    [malloc(2^64 - 16)] and then [malloc(24)] both succeed and both return
    [base0 + 16]; the first call left the frontier where it was, and the
    two extents are not disjoint. *)
Lemma malloc_wrapped_blocks_overlap :
  exists s1 s2,
    malloc base0 (fresh base0) (2 ^ 64 - 16) = Some (s1, base0 + 16) /\
    malloc base0 s1 24 = Some (s2, base0 + 16) /\
    base0 + 16 <> NULL /\
    free_addr s1 = free_addr (fresh base0) /\
    ~ disjoint (extent (base0 + 16) (2 ^ 64 - 16)) (extent (base0 + 16) 24).
Proof.
  eexists. eexists.
  split; [reflexivity|]. split; [reflexivity|].
  split; [discriminate|]. split; [reflexivity|].
  unfold disjoint, extent. vm_compute. intros [H | H]; apply H; reflexivity.
Qed.

(* ===================================================================== *)
(** ** The runs of memtest.c *)

(** [malloc(24)], [malloc(19)], [malloc(32)] on a fresh heap, then
    [realloc(x, 20)] and [realloc(y, 23)]: [x] comes back as it is, [y]
    moves. *)
Example memtest_pointers :
  pointers base0 (pristine zero_memory)
    [Malloc 24; Malloc 19; Malloc 32;
     Realloc (base0 + 16) 20; Realloc (base0 + 48) 23] =
  Some [base0 + 16; base0 + 48; base0 + 80; base0 + 16; base0 + 128].
Proof. vm_compute. reflexivity. Qed.

(** [malloc(123)], [malloc(321)], [malloc(56)], then each resized upward
    to 142, 402 and 67: all six pointers are multiples of 16. *)
Example memtest_alignment :
  exists ps,
    pointers base0 (pristine zero_memory)
      [Malloc 123; Malloc 321; Malloc 56;
       Realloc (base0 + 16) 142; Realloc (base0 + 160) 402;
       Realloc (base0 + 496) 67] = Some ps /\
    firstn 3 ps = [base0 + 16; base0 + 160; base0 + 496] /\
    Forall (fun p => p <> NULL /\ p mod 16 = 0) ps.
Proof.
  eexists. split; [vm_compute; reflexivity|].
  split; [reflexivity|].
  repeat constructor; discriminate.
Qed.

(* ===================================================================== *)
(** ** Further properties of the engine: shared lemmas *)

(** The payload address that the frontier [f] leads to is the least
    multiple of 16 with room for the header. *)
Lemma payload_round_up (f : Z) :
  f + padding f + sizeof_header = round_up16 (f + sizeof_header).
Proof.
  unfold padding, round_up16. rewrite wrap64_mod16. unfold sizeof_header.
  destruct (Z.eqb_spec (16 - (f + 8) mod 16) 16);
    Z.div_mod_to_equations; lia.
Qed.

Lemma round_up16_mono (x y : Z) : x <= y -> round_up16 x <= round_up16 y.
Proof.
  intros H. unfold round_up16.
  assert ((x + 15) / 16 <= (y + 15) / 16) by (apply Z.div_le_mono; lia).
  lia.
Qed.

(** A pointer other than [NULL] that [malloc] returns is a multiple of
    16, whatever the state. *)
Lemma malloc_result_aligned (mmap_result : Z) (s s' : heap) (size p : Z) :
  malloc mmap_result s size = Some (s', p) -> p <> NULL -> p mod 16 = 0.
Proof.
  intros Hm Hp. unfold malloc in Hm.
  destruct (init mmap_result s) as [s0|]; simpl in Hm; [|discriminate].
  destruct (size =? 0); [inversion Hm; subst; contradiction|].
  destruct (_ >? _); inversion Hm; subst; [contradiction|].
  rewrite wrap64_mod16. apply padding_aligned.
Qed.

(** [malloc] on a heap that satisfies the invariant, for a request that
    does not wrap: nothing happens, or the block is cut at the frontier. *)
Lemma malloc_fit_inv (mmap_result : Z) (s s1 : heap) (size p : Z) :
  heap_ok s -> fits s size = true ->
  malloc mmap_result s size = Some (s1, p) ->
  (p = NULL /\ s1 = s /\
   (size = 0 \/
    free_addr s + padding (free_addr s) + sizeof_header + size > end_addr s)) \/
  (p <> NULL /\ 0 < size /\
   p = free_addr s + padding (free_addr s) + sizeof_header /\
   p + size <= end_addr s /\
   free_addr s1 = p + size /\
   start_addr s1 = start_addr s /\ end_addr s1 = end_addr s /\
   mem s1 = store_size (mem s) (p - sizeof_header) size).
Proof.
  intros Hok Hfit Hm.
  pose proof Hok as (H0 & H1 & H2 & H3).
  pose proof (new_free_addr_exact s size ltac:(lia) Hfit) as Hn.
  pose proof Hfit as Hfit'. unfold fits in Hfit'.
  apply andb_true_iff in Hfit'. destruct Hfit' as [Hs _].
  apply Z.leb_le in Hs.
  destruct (malloc_ok_inv _ _ _ _ _ (heap_ok_initialized _ Hok) Hm)
    as [(E & Es & Hc) | (Hsz & Hle & Ep & Hp & Es1)].
  - left. repeat split; try assumption.
    destruct Hc as [Hc|Hc]; [left; exact Hc | right; lia].
  - right. rewrite Es1. simpl. subst p.
    replace (free_addr s + padding (free_addr s) + sizeof_header
             - sizeof_header)
      with (free_addr s + padding (free_addr s)) by lia.
    repeat split; try assumption; lia.
Qed.

(* ===================================================================== *)
(** ** Initialisation *)

(** X1.  [init] on a heap not yet set up, when [mmap] answers a span of
    user addresses: the heap starts at the span, ends [HEAP_SIZE] = 2^31
    bytes later, the frontier is at the start, every byte of the span
    reads zero and every other byte is as before; the invariant holds,
    and a second [init] changes nothing. *)
Theorem init_reserves_span (mmap_result : Z) (s : heap) :
  start_addr s = 0 ->
  mmap_ok mmap_result ->
  exists s0,
    init mmap_result s = Some s0 /\
    start_addr s0 = mmap_result /\
    free_addr s0 = mmap_result /\
    end_addr s0 = mmap_result + 2 ^ 31 /\
    heap_ok s0 /\
    (forall a, start_addr s0 <= a < end_addr s0 -> mem s0 a = Byte.x00) /\
    (forall a, a < start_addr s0 \/ end_addr s0 <= a -> mem s0 a = mem s a) /\
    init mmap_result s0 = Some s0.
Proof.
  intros Hs [H0 H1].
  assert (HH : HEAP_SIZE = 2 ^ 31) by reflexivity.
  unfold INTPTR_MAX in H1.
  unfold init. rewrite Hs. simpl.
  destruct (Z.eqb_spec mmap_result MAP_FAILED) as [E|_].
  { unfold MAP_FAILED in E. lia. }
  rewrite (to_intptr_small mmap_result) by (unfold INTPTR_MAX; lia).
  rewrite to_intptr_small by (unfold INTPTR_MAX; lia).
  eexists. split; [reflexivity|]. simpl.
  split; [reflexivity|]. split; [reflexivity|]. split; [lia|].
  split; [unfold heap_ok, INTPTR_MAX; simpl; lia|].
  split; [|split].
  - intros a Ha. unfold memset.
    destruct (Z.leb_spec mmap_result a);
      destruct (Z.ltb_spec a (mmap_result + HEAP_SIZE)); simpl;
      try reflexivity; lia.
  - intros a Ha. unfold memset.
    destruct (Z.leb_spec mmap_result a);
      destruct (Z.ltb_spec a (mmap_result + HEAP_SIZE)); simpl;
      try reflexivity; lia.
  - destruct (Z.eqb_spec mmap_result 0); [lia | reflexivity].
Qed.

Lemma init_reserves_span_witness :
  exists s0,
    init base0 (pristine zero_memory) = Some s0 /\
    start_addr s0 = base0 /\ free_addr s0 = base0 /\
    end_addr s0 = base0 + 2 ^ 31.
Proof.
  destruct (init_reserves_span base0 (pristine zero_memory) eq_refl
              mmap_ok_base0) as (s0 & Hi & Hs & Hf & He & _).
  exists s0. repeat split; assumption.
Defined.

(** X2.  The first call, on a heap not yet set up.  When [mmap] answers
    [MAP_FAILED], [malloc], [calloc] and [realloc(NULL, size)] stop the
    process whatever the sizes, 0 too, [init] coming before the size
    test; [realloc(ptr, 0)] with [ptr] not [NULL] does not reach [init]
    and returns [NULL] with the globals still at 0.  When [mmap] answers
    a span of user addresses, [malloc(0)] and [calloc(nmemb, 0)] return
    [NULL] and yet leave the heap reserved. *)
Theorem first_call_reserves_or_stops
    (mmap_result : Z) (s : heap) (size nmemb ptr : Z) :
  start_addr s = 0 ->
  ptr <> NULL ->
  mmap_ok mmap_result ->
  malloc MAP_FAILED s size = None /\
  calloc MAP_FAILED s nmemb size = None /\
  realloc MAP_FAILED s NULL size = None /\
  realloc MAP_FAILED s ptr 0 = Some (s, NULL) /\
  exists s0,
    init mmap_result s = Some s0 /\
    start_addr s0 = mmap_result /\
    free_addr s0 = mmap_result /\
    malloc mmap_result s 0 = Some (s0, NULL) /\
    calloc mmap_result s nmemb 0 = Some (s0, NULL).
Proof.
  intros Hs Hp [H0 H1].
  assert (Hfail : init MAP_FAILED s = None).
  { unfold init. rewrite Hs. reflexivity. }
  assert (Hmal : forall n, malloc MAP_FAILED s n = None).
  { intros n. unfold malloc. rewrite Hfail. reflexivity. }
  split; [apply Hmal|].
  split; [unfold calloc; rewrite Hmal; reflexivity|].
  split; [unfold realloc; simpl; apply Hmal|].
  split.
  { unfold realloc. destruct (Z.eqb_spec ptr NULL); [contradiction|].
    reflexivity. }
  assert (HH : HEAP_SIZE = 2 ^ 31) by reflexivity.
  unfold INTPTR_MAX in H1.
  unfold calloc, malloc, init. rewrite Hs, Z.mul_0_r. simpl.
  destruct (Z.eqb_spec mmap_result MAP_FAILED) as [E|_].
  { unfold MAP_FAILED in E. lia. }
  eexists. split; [reflexivity|]. simpl.
  rewrite (to_intptr_small mmap_result) by (unfold INTPTR_MAX; lia).
  repeat split.
Qed.

Lemma first_call_reserves_or_stops_witness :
  malloc MAP_FAILED (pristine zero_memory) 0 = None /\
  exists s0,
    malloc base0 (pristine zero_memory) 0 = Some (s0, NULL) /\
    start_addr s0 = base0.
Proof.
  destruct (first_call_reserves_or_stops base0 (pristine zero_memory)
              0 3 (base0 + 16) eq_refl)
    as (Hm & _ & _ & _ & s0 & Hi & Hs0 & _ & Hm0 & _).
  - discriminate.
  - exact mmap_ok_base0.
  - split; [exact Hm|]. exists s0. split; [exact Hm0 | exact Hs0].
Defined.

(* ===================================================================== *)
(** ** Where the calls write *)

Section Frame.

Variable mmap_result : Z.

Lemma malloc_frame (s s1 : heap) (size p : Z) :
  heap_ok s -> fits s size = true ->
  malloc mmap_result s size = Some (s1, p) ->
  forall a, a < free_addr s \/ free_addr s1 <= a -> mem s1 a = mem s a.
Proof.
  intros Hok Hfit Hm a Ha.
  pose proof (padding_range (free_addr s)) as Hpad.
  destruct (malloc_fit_inv _ _ _ _ _ Hok Hfit Hm)
    as [(_ & E & _) | (_ & Hsz & Ep & _ & Ef & _ & _ & Emem)].
  - subst s1. reflexivity.
  - rewrite Emem. apply store_size_outside.
    unfold sizeof_header in *. lia.
Qed.

Lemma exec_frame (s s' : heap) (o : op) (r : Z) :
  heap_ok s -> fits s (op_size o) = true ->
  exec mmap_result s o = Some (s', r) ->
  forall a, a < free_addr s \/ free_addr s' <= a -> mem s' a = mem s a.
Proof.
  intros Hok Hfit He a Ha.
  pose proof (padding_range (free_addr s)) as Hpad.
  destruct o as [size|nmemb size|ptr size|ptr]; simpl in *.
  - eapply malloc_frame; eassumption.
  - unfold calloc in He.
    destruct (malloc mmap_result s (wrap64 (nmemb * size)))
      as [[s1 p]|] eqn:Hm; simpl in He; [|discriminate].
    destruct (Z.eqb_spec p NULL) as [Hp|Hp]; simpl in He;
      inversion He; subst; clear He.
    + eapply malloc_frame; eassumption.
    + simpl in *.
      destruct (malloc_fit_inv _ _ _ _ _ Hok Hfit Hm)
        as [(E & _) | (_ & Hsz & Ep & _ & Ef & _ & _ & _)];
        [contradiction|].
      unfold memset.
      destruct (Z.leb_spec r a);
        destruct (Z.ltb_spec a (r + wrap64 (nmemb * size))); simpl;
        try (eapply malloc_frame; eassumption);
        unfold sizeof_header in *; lia.
  - unfold realloc in He.
    destruct (ptr =? NULL).
    { eapply malloc_frame; eassumption. }
    destruct (size =? 0).
    { inversion He; subst. reflexivity. }
    destruct (Z.leb_spec size (load_size (mem s) (wrap64 (ptr - sizeof_header)))).
    { inversion He; subst. reflexivity. }
    destruct (malloc mmap_result s size) as [[s1 p]|] eqn:Hm;
      simpl in He; [|discriminate].
    destruct (Z.eqb_spec p NULL) as [Hp|Hp]; simpl in He;
      inversion He; subst; clear He.
    + eapply malloc_frame; eassumption.
    + unfold free in *. simpl in *.
      destruct (malloc_fit_inv _ _ _ _ _ Hok Hfit Hm)
        as [(E & _) | (_ & Hsz & Ep & _ & Ef & _ & _ & _)];
        [contradiction|].
      pose proof (load_size_range (mem s) (wrap64 (ptr - sizeof_header))).
      unfold memcpy.
      destruct (Z.leb_spec r a);
        destruct (Z.ltb_spec a
                    (r + load_size (mem s) (wrap64 (ptr - sizeof_header))));
        simpl;
        try (eapply malloc_frame; eassumption);
        unfold sizeof_header in *; lia.
  - inversion He; subst. reflexivity.
Qed.

Lemma run_frame (ops : list op) :
  forall s s' : heap,
    heap_ok s -> all_fit mmap_result s ops = true ->
    run mmap_result s ops = Some s' ->
    forall a, a < free_addr s \/ free_addr s' <= a -> mem s' a = mem s a.
Proof.
  induction ops as [|o ops IH]; intros s s' Hok Hfit Hrun a Ha; simpl in *.
  - inversion Hrun; subst. reflexivity.
  - apply andb_true_iff in Hfit. destruct Hfit as [Hf Hrest].
    destruct (exec mmap_result s o) as [[s1 r]|] eqn:He; simpl in Hrun;
      [|discriminate].
    pose proof (exec_advances _ _ _ _ _ Hok Hf He) as (Hok1 & Hm1 & _).
    pose proof (run_advances _ _ _ _ Hok1 Hrest Hrun) as (_ & Hm2 & _).
    rewrite (IH s1 s' Hok1 Hrest Hrun a) by lia.
    eapply exec_frame; try eassumption. lia.
Qed.

End Frame.

(** X3.  Over any history of calls none of which wraps, started on a
    heap that satisfies the invariant, every byte written lies between
    the frontier at the start and the frontier at the end: all bytes
    below the first or at or above the last are as they were. *)
Theorem run_writes_between_frontiers
    (mmap_result : Z) (s s' : heap) (ops : list op) (a : Z) :
  heap_ok s ->
  all_fit mmap_result s ops = true ->
  run mmap_result s ops = Some s' ->
  a < free_addr s \/ free_addr s' <= a ->
  mem s' a = mem s a.
Proof.
  intros Hok Hfit Hrun Ha. eapply run_frame; eassumption.
Qed.

Lemma heap_x_ok : heap_ok heap_x.
Proof. unfold heap_ok. vm_compute. repeat split; discriminate. Defined.

Lemma fresh_base0_ok : heap_ok (fresh base0).
Proof. unfold heap_ok. vm_compute. repeat split; discriminate. Defined.

Lemma run_writes_between_frontiers_witness :
  exists s',
    run base0 heap_x [Malloc 19; Free (base0 + 16); Calloc 3 4] = Some s' /\
    mem s' (base0 + 8) = mem heap_x (base0 + 8).
Proof.
  eexists. split; [reflexivity|].
  apply (run_writes_between_frontiers base0 heap_x _
           [Malloc 19; Free (base0 + 16); Calloc 3 4] (base0 + 8)).
  - exact heap_x_ok.
  - vm_compute. reflexivity.
  - reflexivity.
  - left. vm_compute. reflexivity.
Defined.

(* ===================================================================== *)
(** ** The header of a block *)

(** The header that a successful [malloc] writes reads back as the size
    requested. *)
Lemma malloc_header (mmap_result : Z) (s s1 : heap) (size p : Z) :
  heap_ok s -> fits s size = true ->
  malloc mmap_result s size = Some (s1, p) -> p <> NULL ->
  wrap64 (p - sizeof_header) = p - sizeof_header /\
  free_addr s <= p - sizeof_header /\
  free_addr s1 = p + size /\
  0 < size /\
  heap_ok s1 /\
  load_size (mem s1) (p - sizeof_header) = size.
Proof.
  intros Hok Hfit Hm Hp.
  pose proof (padding_range (free_addr s)) as Hpad.
  pose proof Hok as (H0 & H1 & H2 & H3).
  pose proof (malloc_advances _ _ _ _ _ Hok Hfit Hm) as (Hok1 & _).
  destruct (malloc_fit_inv _ _ _ _ _ Hok Hfit Hm)
    as [(E & _) | (_ & Hsz & Ep & Hend & Ef & _ & _ & Emem)];
    [contradiction|].
  unfold INTPTR_MAX, sizeof_header in *.
  split; [apply wrap64_small; lia|].
  split; [lia|]. split; [exact Ef|]. split; [exact Hsz|].
  split; [exact Hok1|].
  rewrite Emem, load_store_size. apply wrap64_small. lia.
Qed.

(** X4.  A block handed out by [malloc(size)] keeps what it holds.  On a
    heap that satisfies the invariant and with no request wrapping: right
    after the call the header records [size]; after any further history
    of calls of the family the header still records [size] and every
    byte of the payload is as it was; and [realloc] to any positive size
    up to [size] still returns the block itself and changes nothing. *)
Theorem block_survives_history
    (mmap_result : Z) (s s1 s2 : heap) (size p : Z) (ops : list op) :
  heap_ok s ->
  fits s size = true ->
  malloc mmap_result s size = Some (s1, p) ->
  p <> NULL ->
  all_fit mmap_result s1 ops = true ->
  run mmap_result s1 ops = Some s2 ->
  load_size (mem s1) (wrap64 (p - sizeof_header)) = size /\
  load_size (mem s2) (wrap64 (p - sizeof_header)) = size /\
  (forall i, 0 <= i < size -> mem s2 (p + i) = mem s1 (p + i)) /\
  (forall size', 0 < size' <= size ->
     realloc mmap_result s2 p size' = Some (s2, p)).
Proof.
  intros Hok Hfit Hm Hp Hfits Hrun.
  destruct (malloc_header _ _ _ _ _ Hok Hfit Hm Hp)
    as (Hw & Hlow & Hf1 & Hsz & Hok1 & Hld).
  assert (Hkeep : forall a, a < p + size -> mem s2 a = mem s1 a).
  { intros a Ha. eapply run_frame; try eassumption. lia. }
  assert (Hld2 : load_size (mem s2) (p - sizeof_header) = size).
  { rewrite <- Hld. apply load_size_ext. intros a Ha.
    apply Hkeep. unfold sizeof_header in *. lia. }
  rewrite Hw. repeat split; try assumption.
  - intros i Hi. apply Hkeep. lia.
  - intros size' Hs'. unfold realloc.
    destruct (Z.eqb_spec p NULL); [contradiction|].
    destruct (Z.eqb_spec size' 0); [lia|].
    rewrite Hw, Hld2.
    destruct (Z.leb_spec size' size); [reflexivity | lia].
Qed.

Lemma block_survives_history_witness :
  load_size (mem heap_y) (wrap64 (base0 + 16 - sizeof_header)) = 24 /\
  realloc base0 heap_y (base0 + 16) 20 = Some (heap_y, base0 + 16).
Proof.
  destruct (block_survives_history base0 (fresh base0) heap_x heap_y 24
              (base0 + 16) [Malloc 19] fresh_base0_ok eq_refl eq_refl)
    as (_ & Hh & _ & Hr).
  - discriminate.
  - vm_compute. reflexivity.
  - reflexivity.
  - split; [exact Hh|]. apply Hr. lia.
Defined.

(* ===================================================================== *)
(** ** When an allocation succeeds, and what it costs *)

(** X5.  On a heap that satisfies the invariant, [malloc(size)] for a
    request that does not wrap returns, and returns a block exactly when
    [size] is positive and the payload, placed at the least multiple of
    16 that leaves room for the header, ends at or before [end_addr]
    (ending exactly at [end_addr] is accepted).  A refused request
    changes nothing; a granted one moves the frontier to the end of the
    payload, an advance of between [size + 8] and [size + 23] bytes. *)
Theorem malloc_succeeds_iff_room
    (mmap_result : Z) (s : heap) (size : Z) :
  heap_ok s ->
  fits s size = true ->
  exists s1 p,
    malloc mmap_result s size = Some (s1, p) /\
    (p <> NULL <->
     0 < size /\
     round_up16 (free_addr s + sizeof_header) + size <= end_addr s) /\
    (p = NULL -> s1 = s) /\
    (p <> NULL ->
     p = round_up16 (free_addr s + sizeof_header) /\
     free_addr s1 = p + size /\
     size + 8 <= free_addr s1 - free_addr s <= size + 23).
Proof.
  intros Hok Hfit.
  pose proof (padding_range (free_addr s)) as Hpad.
  pose proof (payload_round_up (free_addr s)) as Hru.
  destruct (malloc mmap_result s size) as [[s1 p]|] eqn:Hm.
  2:{ rewrite malloc_cases in Hm by (apply heap_ok_initialized, Hok).
      destruct (size =? 0); [discriminate|].
      destruct (_ >? _); discriminate. }
  exists s1, p. split; [reflexivity|].
  destruct (malloc_fit_inv _ _ _ _ _ Hok Hfit Hm)
    as [(E & Es & Hc) | (Hp & Hsz & Ep & Hend & Ef & _)].
  - subst p s1.
    split; [split; [intros H; contradiction|]|].
    + intros [Hs Hroom]. exfalso. unfold sizeof_header in *.
      destruct Hc; lia.
    + split; [reflexivity | intros H; contradiction].
  - unfold sizeof_header in *.
    split; [split; [intros _; lia | intros _; exact Hp]|].
    split; [intros E; contradiction|].
    intros _. repeat split; lia.
Qed.

Lemma malloc_succeeds_iff_room_witness :
  exists s1 p,
    malloc base0 (fresh base0) (HEAP_SIZE - 16) = Some (s1, p) /\
    p <> NULL /\ free_addr s1 = end_addr (fresh base0).
Proof.
  destruct (malloc_succeeds_iff_room base0 (fresh base0) (HEAP_SIZE - 16)
              fresh_base0_ok eq_refl) as (s1 & p & Hm & Hiff & _ & Hadv).
  assert (Hp : p <> NULL).
  { apply Hiff. vm_compute. split; [reflexivity | discriminate]. }
  exists s1, p. split; [exact Hm|]. split; [exact Hp|].
  destruct (Hadv Hp) as (Ep & Ef & _).
  rewrite Ef, Ep. vm_compute. reflexivity.
Defined.

Lemma round_up16_shift (p x : Z) :
  p mod 16 = 0 -> round_up16 (p + x) = p + round_up16 x.
Proof.
  intros Hp. unfold round_up16. Z.div_mod_to_equations. lia.
Qed.

(** X6.  Two blocks allocated one right after the other, no request
    wrapping: the second payload lies exactly [size1 + 8] rounded up to a
    multiple of 16 after the first, so a block of [size1] bytes costs
    that many bytes of the heap. *)
Theorem consecutive_blocks_stride
    (mmap_result : Z) (s s1 s2 : heap) (size1 size2 p1 p2 : Z) :
  heap_ok s ->
  fits s size1 = true ->
  malloc mmap_result s size1 = Some (s1, p1) ->
  p1 <> NULL ->
  fits s1 size2 = true ->
  malloc mmap_result s1 size2 = Some (s2, p2) ->
  p2 <> NULL ->
  p2 = p1 + round_up16 (size1 + sizeof_header).
Proof.
  intros Hok Hf1 Hm1 Hp1 Hf2 Hm2 Hp2.
  destruct (malloc_header _ _ _ _ _ Hok Hf1 Hm1 Hp1)
    as (_ & _ & Hfree1 & _ & Hok1 & _).
  destruct (malloc_fit_inv _ _ _ _ _ Hok1 Hf2 Hm2)
    as [(E & _) | (_ & _ & Ep2 & _)]; [contradiction|].
  rewrite Ep2, payload_round_up, Hfree1, <- Z.add_assoc.
  apply round_up16_shift.
  eapply malloc_result_aligned; eassumption.
Qed.

Lemma consecutive_blocks_stride_witness :
  base0 + 48 = base0 + 16 + round_up16 (24 + sizeof_header).
Proof.
  apply (consecutive_blocks_stride base0 (fresh base0) heap_x heap_y
           24 19 (base0 + 16) (base0 + 48) fresh_base0_ok
           eq_refl eq_refl).
  - discriminate.
  - reflexivity.
  - reflexivity.
  - discriminate.
Defined.

(* ===================================================================== *)
(** ** Alignment of every pointer handed out *)

(** X7.  Every pointer other than [NULL] that a call of the family
    returns is a multiple of 16, provided the pointer given to [realloc],
    which may come back as it is, was one: [calloc] and the growing
    [realloc] return what [malloc] returned. *)
Theorem returned_pointers_aligned
    (mmap_result : Z) (s s' : heap) (o : op) (p : Z) :
  exec mmap_result s o = Some (s', p) ->
  p <> NULL ->
  (forall ptr size, o = Realloc ptr size -> ptr mod 16 = 0) ->
  p mod 16 = 0.
Proof.
  intros He Hp Hptr.
  destruct o as [size|nmemb size|ptr size|ptr]; simpl in He.
  - eapply malloc_result_aligned; eassumption.
  - unfold calloc in He.
    destruct (malloc mmap_result s (wrap64 (nmemb * size)))
      as [[s1 q]|] eqn:Hm; simpl in He; [|discriminate].
    destruct (negb (q =? NULL)); inversion He; subst;
      eapply malloc_result_aligned; eassumption.
  - unfold realloc in He.
    destruct (ptr =? NULL).
    { eapply malloc_result_aligned; eassumption. }
    destruct (size =? 0).
    { inversion He; subst. contradiction. }
    destruct (size <=? _).
    { inversion He; subst. eapply Hptr. reflexivity. }
    destruct (malloc mmap_result s size) as [[s1 q]|] eqn:Hm;
      simpl in He; [|discriminate].
    destruct (negb (q =? NULL)); inversion He; subst;
      eapply malloc_result_aligned; eassumption.
  - inversion He; subst. contradiction.
Qed.

Lemma returned_pointers_aligned_witness : (base0 + 48) mod 16 = 0.
Proof.
  apply (returned_pointers_aligned base0 heap_arr
           (free (set_mem heap_arr17
                    (memcpy (mem heap_arr17) (base0 + 48) (base0 + 16) 13))
              (base0 + 16))
           (Realloc (base0 + 16) 17) (base0 + 48)).
  - reflexivity.
  - discriminate.
  - intros ptr size E. inversion E. reflexivity.
Defined.

(* ===================================================================== *)
(** ** Refusals *)

(** X8.  On a heap already set up whose frontier is a non-negative
    address, a call of the family that returns [NULL] ([malloc],
    [calloc], [realloc] on any of its paths, and [free], which returns
    nothing) leaves the whole state exactly as it was. *)
Theorem null_result_changes_nothing
    (mmap_result : Z) (s s' : heap) (o : op) :
  initialized s ->
  exec mmap_result s o = Some (s', NULL) ->
  s' = s.
Proof.
  intros Hin He.
  assert (Hmal : forall n s1 q,
             malloc mmap_result s n = Some (s1, q) ->
             (q = NULL /\ s1 = s) \/ q <> NULL).
  { intros n s1 q Hm.
    destruct (malloc_ok_inv _ _ _ _ _ Hin Hm)
      as [(E & Es & _) | (_ & _ & _ & Hq & _)]; [left | right]; auto. }
  destruct o as [size|nmemb size|ptr size|ptr]; simpl in He.
  - destruct (Hmal _ _ _ He) as [[_ E]|Hq]; [exact E | contradiction Hq; reflexivity].
  - unfold calloc in He.
    destruct (malloc mmap_result s (wrap64 (nmemb * size)))
      as [[s1 q]|] eqn:Hm; simpl in He; [|discriminate].
    destruct (Hmal _ _ _ Hm) as [[Eq Es]|Hq].
    + subst. simpl in He. inversion He; subst. reflexivity.
    + destruct (Z.eqb_spec q NULL); [contradiction|].
      simpl in He. inversion He; subst. contradiction.
  - unfold realloc in He.
    destruct (Z.eqb_spec ptr NULL).
    { destruct (Hmal _ _ _ He) as [[_ E]|Hq];
        [exact E | contradiction Hq; reflexivity]. }
    destruct (size =? 0).
    { inversion He; subst. reflexivity. }
    destruct (size <=? _).
    { inversion He; subst. contradiction. }
    destruct (malloc mmap_result s size) as [[s1 q]|] eqn:Hm;
      simpl in He; [|discriminate].
    destruct (Hmal _ _ _ Hm) as [[Eq Es]|Hq].
    + subst. simpl in He. inversion He; subst. reflexivity.
    + destruct (Z.eqb_spec q NULL); [contradiction|].
      simpl in He. inversion He; subst. contradiction.
  - inversion He; subst. reflexivity.
Qed.

Lemma null_result_changes_nothing_witness :
  exists s',
    calloc base0 heap_x (2 ^ 16) (2 ^ 16) = Some (s', NULL) /\ s' = heap_x.
Proof.
  eexists. split; [reflexivity|].
  apply (null_result_changes_nothing base0 heap_x _
           (Calloc (2 ^ 16) (2 ^ 16)) heap_x_initialized).
  reflexivity.
Defined.

Lemma round_up16_bounds (x : Z) : x <= round_up16 x <= x + 15.
Proof. unfold round_up16. Z.div_mod_to_equations. lia. Qed.

(** A positive request with room for it is granted. *)
Lemma malloc_room (mmap_result : Z) (s : heap) (size : Z) :
  heap_ok s -> 0 < size ->
  round_up16 (free_addr s + sizeof_header) + size <= end_addr s ->
  exists s1 p,
    malloc mmap_result s size = Some (s1, p) /\
    p <> NULL /\ heap_ok s1 /\
    p = round_up16 (free_addr s + sizeof_header) /\
    free_addr s1 = p + size /\
    start_addr s1 = start_addr s /\ end_addr s1 = end_addr s.
Proof.
  intros Hok Hsz Hroom.
  pose proof Hok as (H0 & H1 & H2 & H3).
  pose proof (payload_round_up (free_addr s)) as Hru.
  assert (Hfit : fits s size = true).
  { unfold fits. apply andb_true_iff. split; apply Z.leb_le; lia. }
  destruct (malloc mmap_result s size) as [[s1 p]|] eqn:Hm.
  2:{ rewrite malloc_cases in Hm by (apply heap_ok_initialized, Hok).
      destruct (size =? 0); [discriminate|].
      destruct (_ >? _); discriminate. }
  exists s1, p. split; [reflexivity|].
  pose proof (malloc_advances _ _ _ _ _ Hok Hfit Hm) as (Hok1 & _ & Hs & He).
  destruct (malloc_fit_inv _ _ _ _ _ Hok Hfit Hm)
    as [(_ & _ & Hc) | (Hp & _ & Ep & _ & Ef & _)].
  - exfalso. destruct Hc; lia.
  - repeat split; try assumption; try apply Hok1; lia.
Qed.

(** X9.  A refusal is final.  On a heap that satisfies the invariant,
    once [malloc] has refused a positive size, then after any history of
    calls of the family (frees included), none wrapping, [malloc] refuses
    that size and every larger one, and the state stays as it is. *)
Theorem refusal_is_permanent
    (mmap_result : Z) (s s1 s' : heap) (size size' : Z) (ops : list op) :
  heap_ok s ->
  fits s size = true ->
  0 < size ->
  malloc mmap_result s size = Some (s1, NULL) ->
  all_fit mmap_result s ops = true ->
  run mmap_result s ops = Some s' ->
  size <= size' ->
  fits s' size' = true ->
  malloc mmap_result s' size' = Some (s', NULL).
Proof.
  intros Hok Hfit Hsz Hm Hfits Hrun Hle Hfit'.
  destruct (malloc_fit_inv _ _ _ _ _ Hok Hfit Hm)
    as [(_ & _ & Hc) | (Hp & _)]; [|contradiction Hp; reflexivity].
  destruct Hc as [Hc|Hc]; [lia|].
  pose proof (run_advances _ _ _ _ Hok Hfits Hrun) as (Hok' & Hmono & _ & He).
  pose proof (payload_round_up (free_addr s)) as Hru.
  pose proof (payload_round_up (free_addr s')) as Hru'.
  pose proof (round_up16_mono (free_addr s + sizeof_header)
                (free_addr s' + sizeof_header) ltac:(lia)) as Hmon.
  destruct (malloc mmap_result s' size') as [[s2 p2]|] eqn:Hm'.
  2:{ rewrite malloc_cases in Hm' by (apply heap_ok_initialized, Hok').
      destruct (size' =? 0); [discriminate|].
      destruct (_ >? _); discriminate. }
  destruct (malloc_fit_inv _ _ _ _ _ Hok' Hfit' Hm')
    as [(Ep & Es & _) | (_ & _ & Ep & Hend & _)].
  - subst. reflexivity.
  - exfalso. lia.
Qed.

Lemma refusal_is_permanent_witness :
  malloc base0 heap_x (HEAP_SIZE + 1) = Some (heap_x, NULL).
Proof.
  apply (refusal_is_permanent base0 (fresh base0) (fresh base0) heap_x
           HEAP_SIZE (HEAP_SIZE + 1) [Malloc 24] fresh_base0_ok).
  - reflexivity.
  - reflexivity.
  - reflexivity.
  - reflexivity.
  - reflexivity.
  - vm_compute. discriminate.
  - reflexivity.
Defined.

(* ===================================================================== *)
(** ** Zeroed blocks and their header *)

(** X10.  A block handed out by [calloc(nmemb, size)], on a heap that
    satisfies the invariant and with a total that does not wrap the
    frontier: the zeroing starts after the header, which records the
    total; the frontier is at the end of the payload; and [realloc] to
    any positive size up to the total returns the block itself, still
    all zero. *)
Theorem calloc_block_records_total
    (mmap_result : Z) (s s' : heap) (nmemb size p : Z) :
  heap_ok s ->
  fits s (wrap64 (nmemb * size)) = true ->
  calloc mmap_result s nmemb size = Some (s', p) ->
  p <> NULL ->
  load_size (mem s') (wrap64 (p - sizeof_header)) = wrap64 (nmemb * size) /\
  free_addr s' = p + wrap64 (nmemb * size) /\
  (forall size', 0 < size' <= wrap64 (nmemb * size) ->
     realloc mmap_result s' p size' = Some (s', p) /\
     forall i, 0 <= i < size' -> mem s' (p + i) = Byte.x00).
Proof.
  intros Hok Hfit Hc Hp. unfold calloc in Hc.
  destruct (malloc mmap_result s (wrap64 (nmemb * size)))
    as [[s1 q]|] eqn:Hm; simpl in Hc; [|discriminate].
  destruct (Z.eqb_spec q NULL) as [Hq|Hq]; simpl in Hc;
    inversion Hc; subst; clear Hc; [contradiction|].
  destruct (malloc_header _ _ _ _ _ Hok Hfit Hm Hp)
    as (Hw & _ & Hf1 & _ & _ & Hld).
  assert (Hld' : load_size
                   (mem (set_mem s1 (memset (mem s1) p Byte.x00
                                       (wrap64 (nmemb * size)))))
                   (p - sizeof_header) = wrap64 (nmemb * size)).
  { rewrite <- Hld at 2. apply load_size_ext. intros a Ha. simpl.
    unfold memset. destruct (Z.leb_spec p a); [lia | reflexivity]. }
  rewrite Hw. split; [exact Hld'|]. split; [exact Hf1|].
  intros size' Hs'. split.
  - unfold realloc.
    destruct (Z.eqb_spec p NULL); [contradiction|].
    destruct (Z.eqb_spec size' 0); [lia|].
    rewrite Hw, Hld'.
    destruct (Z.leb_spec size' (wrap64 (nmemb * size))); [reflexivity | lia].
  - intros i Hi. simpl. unfold memset.
    destruct (Z.leb_spec p (p + i)); [|lia].
    destruct (Z.ltb_spec (p + i) (p + wrap64 (nmemb * size))); [|lia].
    reflexivity.
Qed.

Lemma calloc_block_records_total_witness :
  exists s',
    calloc base0 heap_x 3 4 = Some (s', base0 + 48) /\
    load_size (mem s') (wrap64 (base0 + 48 - sizeof_header)) = 12.
Proof.
  eexists. split; [reflexivity|].
  refine (proj1 (calloc_block_records_total base0 heap_x _ 3 4 (base0 + 48)
                   heap_x_ok eq_refl eq_refl _)).
  discriminate.
Defined.

(* ===================================================================== *)
(** ** The standalone program *)

(** X11.  [main] of pb-alloc.c, started with the globals at 0: when
    [mmap] answers a span of user addresses, the three allocations (16,
    64 and 32 bytes) are all granted whatever the address of the span,
    the three frees change nothing, and [main] exits with status 0
    having used between 136 and 181 bytes of the heap; when [mmap]
    answers [MAP_FAILED] the process is stopped in the first [malloc]. *)
Theorem main_exits_zero (mmap_result : Z) (m : memory) :
  mmap_ok mmap_result ->
  (exists s',
     main mmap_result (pristine m) = Some (s', 0) /\
     heap_ok s' /\
     start_addr s' = mmap_result /\
     end_addr s' = mmap_result + HEAP_SIZE /\
     mmap_result + 136 <= free_addr s' <= mmap_result + 181) /\
  main MAP_FAILED (pristine m) = None.
Proof.
  intros Hmm. split; [|reflexivity].
  destruct (init mmap_result (pristine m)) as [s0|] eqn:Hi.
  2:{ unfold init in Hi. simpl in Hi. destruct Hmm as [H0 H1].
      unfold INTPTR_MAX in H1. assert (HEAP_SIZE = 2 ^ 31) by reflexivity.
      destruct (Z.eqb_spec mmap_result MAP_FAILED) as [E|];
        [unfold MAP_FAILED in E; lia | discriminate]. }
  destruct (init_heap_ok mmap_result m s0 Hmm Hi) as (Hok0 & Hf0 & Hs0 & He0).
  assert (HH : HEAP_SIZE = 2 ^ 31) by reflexivity.
  unfold main.
  rewrite (malloc_after_init _ _ _ 16 Hi) by (destruct Hok0; lia).
  pose proof (round_up16_bounds (free_addr s0 + sizeof_header)) as Hb0.
  destruct (malloc_room mmap_result s0 16 Hok0 ltac:(lia))
    as (s1 & x & Hm1 & _ & Hok1 & Ex & Hf1 & Hs1 & He1).
  { unfold sizeof_header in *. lia. }
  rewrite Hm1. simpl.
  pose proof (round_up16_bounds (free_addr s1 + sizeof_header)) as Hb1.
  destruct (malloc_room mmap_result s1 64 Hok1 ltac:(lia))
    as (s2 & y & Hm2 & _ & Hok2 & Ey & Hf2 & Hs2 & He2).
  { unfold sizeof_header in *. lia. }
  rewrite Hm2. simpl.
  pose proof (round_up16_bounds (free_addr s2 + sizeof_header)) as Hb2.
  destruct (malloc_room mmap_result s2 32 Hok2 ltac:(lia))
    as (s3 & z & Hm3 & _ & Hok3 & Ez & Hf3 & Hs3 & He3).
  { unfold sizeof_header in *. lia. }
  rewrite Hm3. simpl. unfold free.
  exists s3. split; [reflexivity|]. split; [exact Hok3|].
  unfold sizeof_header in *. repeat split; lia.
Qed.

Lemma main_exits_zero_witness :
  exists s', main base0 (pristine zero_memory) = Some (s', 0) /\
             base0 + 136 <= free_addr s' <= base0 + 181.
Proof.
  destruct (main_exits_zero base0 zero_memory mmap_ok_base0)
    as ((s' & Hm & _ & _ & _ & Hf) & _).
  exists s'. split; assumption.
Defined.

Example main_at_base0 :
  exists s', main base0 (pristine zero_memory) = Some (s', 0) /\
             free_addr s' = base0 + 160.
Proof. eexists. split; reflexivity. Qed.
